(** * Contractive recurrent equilibrium network: src/contractive_REN.py

    A shallow embedding of the class [ContractiveREN] and the properties of
    its parameterization, of its one-step recursion and of its sequence
    runner.

    Conventions of the embedding.
    - Tensor entries are taken in a real field [R] (exact arithmetic): no
      rounding, no inf, no nan.  The hyperbolic tangent is a function
      [tanh : R -> R] of the development; the algebraic results hold for any
      such function, the contraction results state what they need of it.
    - A tensor of shape (batch, 1, k) is a matrix with one row per batch
      entry, ['M_(batch_size, k)]; a tensor of shape (1, 1, k) is a row
      vector, broadcast against the batch where torch broadcasts it.
    - An input of shape (batch, horizon, dim_in) is the sequence, over time,
      of its slices [u_in[:, t:t+1, :]].
    - [F.linear(a, W)] is [a *m W^T].
    - A Python exception is a value [Raise e] of the type [result]. *)

From HB Require Import structures.
From mathcomp Require Import boot order algebra.

Set Implicit Arguments.
Unset Strict Implicit.
Unset Printing Implicit Defensive.

Import Order.TTheory GRing.Theory Num.Theory.
Local Open Scope ring_scope.

(** ** Fallible computations *)

Section Result.

Variable R : Type.

(** The exceptions under discussion.  The first four are raised by the
    source ([Tensor.inverse] on a singular matrix raises torch's linear
    algebra error, [assert] raises [AssertionError], [reshape] and [lstsq]
    raise [RuntimeError] on a size mismatch, a method call on a value without
    that method raises [AttributeError]).  The last three are the error
    kinds the specification names; no statement of the source raises them. *)
Inductive exn :=
  | LinAlgError
  | AssertionError
  | RuntimeError
  | AttributeError
  | SingularMatrix (cond : R)
  | InvalidConfiguration
  | ShapeMismatch.

Inductive result (A : Type) :=
  | Ok (a : A)
  | Raise (e : exn).

Arguments Raise {A} e.

Definition bind {A B : Type} (c : result A) (k : A -> result B) : result B :=
  match c with
  | Ok a => k a
  | Raise e => Raise e
  end.

Definition is_ok {A : Type} (c : result A) : bool :=
  if c is Ok _ then true else false.

End Result.

Arguments Raise {R A} e.
Arguments Ok {R A} a.
Arguments LinAlgError {R}.
Arguments AssertionError {R}.
Arguments RuntimeError {R}.
Arguments AttributeError {R}.
Arguments InvalidConfiguration {R}.
Arguments ShapeMismatch {R}.

Notation "'try' a <- c ; k" := (bind c (fun a => k))
  (at level 200, a name, c at level 100, k at level 200, right associativity).

(** ** The torch operations the class uses *)

Section Torch.

Variable R : realFieldType.

(** The float literal 0.5. *)
Definition half : R := 2^-1.

(** [torch.split(A, [a, b, c], dim=0)]. *)
Definition split_rows (a b c k : nat) (A : 'M[R]_(a + (b + c), k)) :
    'M[R]_(a, k) * 'M[R]_(b, k) * 'M[R]_(c, k) :=
  (usubmx A, usubmx (dsubmx A), dsubmx (dsubmx A)).

(** [torch.split(A, [a, b, c], dim=1)]. *)
Definition split_cols (k a b c : nat) (A : 'M[R]_(k, a + (b + c))) :
    'M[R]_(k, a) * 'M[R]_(k, b) * 'M[R]_(k, c) :=
  (lsubmx A, lsubmx (rsubmx A), rsubmx (rsubmx A)).

(** [torch.eye(k)]. *)
Definition eye (k : nat) : 'M[R]_k := 1%:M.

(** [torch.diag(A)] of a square matrix: the vector of its diagonal. *)
Definition diag (k : nat) (A : 'M[R]_k) : 'rV[R]_k := \row_i A i i.

(** [torch.tril(A, diagonal=d)]: the entries (i, j) with j - i <= d, the
    others zero. *)
Definition tril (k : nat) (A : 'M[R]_k) (diagonal : int) : 'M[R]_k :=
  \matrix_(i, j) (if ((j : nat)%:Z - (i : nat)%:Z <= diagonal)%R
                  then A i j else 0).

(** [F.linear(a, W)], without bias. *)
Definition linear (b k o : nat) (a : 'M[R]_(b, k)) (W : 'M[R]_(o, k)) :
    'M[R]_(b, o) :=
  a *m W^T.

(** [A.inverse()]: in exact arithmetic the inverse exists exactly for the
    matrices of the unit group; torch raises on a singular matrix. *)
Definition inverse (k : nat) (A : 'M[R]_k) : result R 'M[R]_k :=
  if A \in unitmx then Ok (invmx A) else Raise LinAlgError.

(** Broadcasting of a tensor of shape (1, 1, k) against a batch of [b]. *)
Definition bcast (b k : nat) (v : 'rV[R]_k) : 'M[R]_(b, k) :=
  \matrix_(i, j) v 0 j.

(** A tensor handed to the constructor: its shape and its entries in
    row-major order. *)
Record tensor := Tensor { shape : seq nat; data : seq R }.

Definition numel (t : tensor) : nat := \prod_(d <- shape t) d.

Definition wf_tensor (t : tensor) : bool := size (data t) == numel t.

(** [t.reshape(1, 1, k)] (also [t.reshape(1, k)]): the entries in order, when
    there are [k] of them. *)
Definition reshape_row (k : nat) (t : tensor) : result R 'rV[R]_k :=
  if numel t == k then Ok (\row_(j < k) nth 0 (data t) j)
  else Raise RuntimeError.

(** A Python value passed where a tensor or [None] is expected. *)
Inductive pyobj :=
  | PyNone
  | PyTensor (t : tensor)
  | PyOther.

End Torch.

(** ** The class ContractiveREN *)

Section ContractiveREN.

Variable R : realFieldType.

(** [torch.tanh], entry by entry. *)
Variable tanh : R -> R.

(** [torch.linalg.lstsq(A, b)[0]]: a least-squares solution of [A x = b]. *)
Variable lstsq : forall p n : nat, 'M[R]_(p, n) -> 'cV[R]_p -> 'cV[R]_n.

Variables (dim_in dim_out dim_internal dim_nl : nat).

(** [u_in.shape[0]]. *)
Variable batch_size : nat.

Local Notation n := dim_internal.
Local Notation l := dim_nl.
Local Notation m := dim_in.
Local Notation p := dim_out.
Local Notation B := batch_size.

(** What the attribute [self.x] is bound to.  [reset] binds it to the very
    tensor registered as the buffer [x_init]; the constructor and [forward]
    bind it to a tensor of their own. *)
Inductive xbinding :=
  | AliasInit
  | Own1 (v : 'rV[R]_n)
  | OwnB (M : 'M[R]_(B, n)).

(** The instance: the seven trainable parameters ([X] has side
    2 * dim_internal + dim_nl, written [n + (l + n)] after the way it is
    split), the two configuration scalars kept as attributes, the state
    [x] and the two buffers. *)
Record model := Model {
  X : 'M[R]_(n + (l + n));
  Y : 'M[R]_n;
  B2 : 'M[R]_(n, m);
  C2 : 'M[R]_(p, n);
  D21 : 'M[R]_(p, l);
  D22 : 'M[R]_(p, m);
  D12 : 'M[R]_(l, m);
  epsilon : R;
  contraction_rate_lb : R;
  x : xbinding;
  x_init : 'rV[R]_n;
  y_init : 'rV[R]_p
}.

(** The attributes set by [_update_model_param]. *)
Record derived := Derived {
  F : 'M[R]_n;
  B1 : 'M[R]_(n, l);
  E : 'M[R]_n;
  E_inv : 'M[R]_n;
  Lambda : 'rV[R]_l;
  D11 : 'M[R]_l;
  C1 : 'M[R]_(l, n)
}.

(** The buffers [eye_mask_H] and [eye_mask_w]. *)
Definition eye_mask_H : 'M[R]_(n + (l + n)) := eye R (n + (l + n)).
Definition eye_mask_w : 'M[R]_l := eye R l.

(** The value of [self.x], broadcast against the batch. *)
Definition x_val (s : model) : 'M[R]_(B, n) :=
  match x s with
  | AliasInit => bcast B (x_init s)
  | Own1 v => bcast B v
  | OwnB M => M
  end.

Definition set_x (s : model) (b : xbinding) : model :=
  Model (X s) (Y s) (B2 s) (C2 s) (D21 s) (D22 s) (D12 s)
        (epsilon s) (contraction_rate_lb s) b (x_init s) (y_init s).

(** [_update_model_param].  It raises where [E.inverse()] raises. *)
Definition update_model_param (s : model) : result R derived :=
  let H := (X s)^T *m X s + epsilon s *: eye_mask_H in
  let '(h1, h2, h3) := split_rows H in
  let '(H11, H12, H13) := split_cols h1 in
  let '(H21, H22, _) := split_cols h2 in
  let '(H31, H32, H33) := split_cols h3 in
  let P := H33 in
  let F := H31 in
  let B1 := H32 in
  let E := half R *: (H11 + contraction_rate_lb s *: P + Y s - (Y s)^T) in
  try E_inv <- inverse E;
  let Lambda := half R *: diag H22 in
  let D11 := - tril H22 (-1) in
  let C1 := - H21 in
  Ok (Derived F B1 E E_inv Lambda D11 C1).

(** One turn of the loop of [forward] that fills [w]. *)
Definition w_step (s : model) (d : derived) (u_in : 'M[R]_(B, m))
    (w : 'M[R]_(B, l)) (i : 'I_l) : 'M[R]_(B, l) :=
  let v : 'cV[R]_B :=
    linear (x_val s) (row i (C1 d)) + linear w (row i (D11 d))
    + linear u_in (row i (D12 s)) in
  w + \matrix_(b, j) (eye_mask_w i j * tanh (v b 0 / Lambda d 0 i)).

(** The loop [for i in range(self.dim_nl)] of [forward], from [w = 0]. *)
Definition solve_w (s : model) (d : derived) (u_in : 'M[R]_(B, m)) :
    'M[R]_(B, l) :=
  foldl (w_step s d u_in) 0 (enum 'I_l).

(** [forward]: the new instance and the returned [y_out]. *)
Definition forward (s : model) (u_in : 'M[R]_(B, m)) :
    result R (model * 'M[R]_(B, p)) :=
  try d <- update_model_param s;
  let w := solve_w s d u_in in
  let x' :=
    linear (linear (x_val s) (F d) + linear w (B1 d) + linear u_in (B2 s))
           (E_inv d) in
  let s' := set_x s (OwnB x') in
  let y_out := linear (x_val s') (C2 s') + linear w (D21 s')
               + linear u_in (D22 s') in
  Ok (s', y_out).

(** [reset]. *)
Definition reset (s : model) : model := set_x s AliasInit.

(** The loop of [run] over the time indices [ts]. *)
Fixpoint run_loop (ts : seq nat) (u_in : seq 'M[R]_(B, m))
    (st : model * seq 'M[R]_(B, p)) : result R (model * seq 'M[R]_(B, p)) :=
  match ts with
  | [::] => Ok st
  | t :: ts' =>
      try r <- forward st.1 (nth 0 u_in t);
      run_loop ts' u_in (r.1, rcons st.2 r.2)
  end.

(** [run]: [u_in] is the sequence of the [u_in.shape[1]] time slices. *)
Definition run (s : model) (u_in : seq 'M[R]_(B, m)) :
    result R (model * seq 'M[R]_(B, p)) :=
  let s0 := reset s in
  let y_log := [:: bcast B (y_init s0)] in
  run_loop (iota 0 (size u_in).-1) u_in (s0, y_log).

(** [__call__]. *)
Definition call (s : model) (u_in : seq 'M[R]_(B, m)) :
    result R (model * seq 'M[R]_(B, p)) :=
  run s u_in.

(** [__init__].  The seven arguments [Z_] are the draws of [torch.randn] for
    the trainable parameters, in the order of [training_param_names].  The
    initial state is zero, or a least-squares fit of the target [y_init]
    (the target is reshaped to one row, which torch refuses for an empty
    tensor, and must have [dim_out] entries for [lstsq]), or the given
    tensor reshaped to (1, 1, dim_internal).  Nothing else is checked. *)
Definition init (Z_X : 'M[R]_(n + (l + n))) (Z_Y : 'M[R]_n)
    (Z_B2 : 'M[R]_(n, m)) (Z_C2 : 'M[R]_(p, n)) (Z_D21 : 'M[R]_(p, l))
    (Z_D22 : 'M[R]_(p, m)) (Z_D12 : 'M[R]_(l, m))
    (internal_state_init y_init : pyobj R)
    (initialization_std pos_def_tol contraction_rate_lb : R) :
    result R model :=
  let X := initialization_std *: Z_X in
  let Y := initialization_std *: Z_Y in
  let B2 := initialization_std *: Z_B2 in
  let C2 := initialization_std *: Z_C2 in
  let D21 := initialization_std *: Z_D21 in
  let D22 := initialization_std *: Z_D22 in
  let D12 := initialization_std *: Z_D12 in
  try xv <-
    match internal_state_init with
    | PyNone =>
        match y_init with
        | PyNone => Ok 0
        | PyTensor t =>
            if numel t == 0%N then Raise RuntimeError
            else try y <- reshape_row p t; Ok (lstsq C2 y^T)^T
        | PyOther => Raise AttributeError
        end
    | PyTensor t => reshape_row n t
    | PyOther => Raise AssertionError
    end;
  let x_init := xv in
  let y_init := linear x_init C2 in
  Ok (Model X Y B2 C2 D21 D22 D12 pos_def_tol contraction_rate_lb
            (Own1 xv) x_init y_init).

(** ** Vocabulary of the statements *)

(** The quadratic form of a square matrix at a row vector. *)
Definition qform (k : nat) (A : 'M[R]_k) (v : 'rV[R]_k) : R :=
  (v *m A *m v^T) 0 0.

(** The bilinear form of a matrix at two row vectors. *)
Definition bform (j k : nat) (A : 'M[R]_(j, k)) (u : 'rV[R]_j)
    (v : 'rV[R]_k) : R :=
  (u *m A *m v^T) 0 0.

(** The squared Euclidean norm of a row vector. *)
Definition sqnorm (k : nat) (v : 'rV[R]_k) : R := \sum_j v 0 j ^+ 2.

Definition symmetric (k : nat) (A : 'M[R]_k) : Prop := A^T = A.

Definition posdef (k : nat) (A : 'M[R]_k) : Prop :=
  forall v : 'rV[R]_k, v != 0 -> 0 < qform A v.

(** The entry of a square matrix at a row and a column given as natural
    numbers (zero outside the matrix). *)
Definition entry (k : nat) (A : 'M[R]_k) (r c : nat) : R :=
  match insub r, insub c with
  | Some i, Some j => A (i : 'I_k) (j : 'I_k)
  | _, _ => 0
  end.

(** The argument of the nonlinearity, all coordinates at once:
    C1 x + D11 w + D12 u, one row per batch entry. *)
Definition v_of (s : model) (d : derived) (u_in : 'M[R]_(B, m))
    (w : 'M[R]_(B, l)) : 'M[R]_(B, l) :=
  linear (x_val s) (C1 d) + linear w (D11 d) + linear u_in (D12 s).

Definition strictly_lower (k : nat) (A : 'M[R]_k) : Prop :=
  forall i j : 'I_k, (i <= j)%N -> A i j = 0.

(** The local [H] of [_update_model_param]. *)
Definition H_mat (s : model) : 'M[R]_(n + (l + n)) :=
  (X s)^T *m X s + epsilon s *: eye_mask_H.

(** The attributes [_update_model_param] sets when [E.inverse()] returns. *)
Definition derived_of (s : model) : derived :=
  let H := H_mat s in
  let E := half R *: (lsubmx (usubmx H)
                      + contraction_rate_lb s *: rsubmx (rsubmx (dsubmx (dsubmx H)))
                      + Y s - (Y s)^T) in
  Derived (lsubmx (dsubmx (dsubmx H)))
          (lsubmx (rsubmx (dsubmx (dsubmx H))))
          E (invmx E)
          (half R *: diag (lsubmx (rsubmx (usubmx (dsubmx H)))))
          (- tril (lsubmx (rsubmx (usubmx (dsubmx H)))) (-1))
          (- lsubmx (usubmx (dsubmx H))).

(** The state and the output [forward] computes when [E.inverse()]
    returns. *)
Definition next_x (s : model) (u_in : 'M[R]_(B, m)) : 'M[R]_(B, n) :=
  let d := derived_of s in
  linear (linear (x_val s) (F d) + linear (solve_w s d u_in) (B1 d)
          + linear u_in (B2 s)) (E_inv d).

Definition out_y (s : model) (u_in : 'M[R]_(B, m)) : 'M[R]_(B, p) :=
  linear (next_x s u_in) (C2 s) + linear (solve_w s (derived_of s) u_in) (D21 s)
  + linear u_in (D22 s).

Definition step (s : model) (u_in : 'M[R]_(B, m)) : model :=
  set_x s (OwnB (next_x s u_in)).

(** [forward], time slice after time slice, from the current state: the
    trajectory of the state under the input sequence [u_in]. *)
Fixpoint steps (s : model) (u_in : seq 'M[R]_(B, m)) : result R model :=
  match u_in with
  | [::] => Ok s
  | u :: u_in' => try r <- forward s u; steps r.1 u_in'
  end.

(** [optimizer.step()] of the training scripts: the trainable parameters
    receive new values; nothing else of the instance changes. *)
Definition set_params (s : model) (X' : 'M[R]_(n + (l + n))) (Y' : 'M[R]_n)
    (B2' : 'M[R]_(n, m)) (C2' : 'M[R]_(p, n)) (D21' : 'M[R]_(p, l))
    (D22' : 'M[R]_(p, m)) (D12' : 'M[R]_(l, m)) : model :=
  Model X' Y' B2' C2' D21' D22' D12' (epsilon s) (contraction_rate_lb s)
        (x s) (x_init s) (y_init s).

(** The instances reached from [s0] by calls of [forward], [run] and
    [reset] and by training steps, in any order. *)
Inductive reachable (s0 : model) : model -> Prop :=
  | reach_refl : reachable s0 s0
  | reach_forward s u_in s' y_out :
      reachable s0 s -> forward s u_in = Ok (s', y_out) -> reachable s0 s'
  | reach_run s u_in s' y_log :
      reachable s0 s -> run s u_in = Ok (s', y_log) -> reachable s0 s'
  | reach_reset s : reachable s0 s -> reachable s0 (reset s)
  | reach_train s X' Y' B2' C2' D21' D22' D12' :
      reachable s0 s ->
      reachable s0 (set_params s X' Y' B2' C2' D21' D22' D12').

(** The matrix H of the parameterization, as the specification writes it:
    the Gram matrix of [X] plus epsilon on the diagonal. *)
Definition spec_H (s : model) : 'M[R]_(n + (l + n)) :=
  \matrix_(i, j) (\sum_k X s k i * X s k j + (if i == j then epsilon s else 0)).

End ContractiveREN.

(** ** Closed instances over the rationals

    All dimensions and the batch size are 1, so that [X] is a 3 x 3 matrix
    and the blocks of H are scalars. *)

Section Instances.

Local Notation model1 := (model rat 1 1 1 1 1).

(** A function on the rationals that stands for [tanh] where an instance
    needs one: like [tanh] it is increasing with slope at most 1. *)
Definition slope_half (t : rat) : rat := t / 2.

(** An instance as the constructor leaves it with its default arguments
    (epsilon = 0.001, rho = 1, zero initial state), for [X] the identity. *)
Definition ex_model : model1 :=
  Model 1%:M 0 1%:M 1%:M 1%:M 1%:M 1%:M (1 / 1000) 1 (Own1 1 0) 0 0.

(** The same instance with another state. *)
Definition ex_model_b : model1 := set_x ex_model (Own1 1 1%:M).

(** A row of [X] that couples the first and the last block of H. *)
Definition X_coupled : 'M[rat]_(1 + (1 + 1)) :=
  \matrix_(i, j) (if (i : nat) == 0%N
                  then (if (j : nat) == 0%N then 1
                        else if (j : nat) == 2%N then 3 else 0)
                  else 0).

(** An instance with epsilon = 1 and rho = 1/5, started at the state 0. *)
Definition slow_model : model1 :=
  Model X_coupled 0 0 1%:M 0 0 0 1 (1 / 5) (Own1 1 0) 0 0.

(** The same instance started at the state 1. *)
Definition slow_model_b : model1 := set_x slow_model (Own1 1 1%:M).

(** An instance with epsilon = 1 and rho = -1, for [X] zero: its E is the
    zero matrix. *)
Definition singular_model : model1 :=
  Model 0 0 1%:M 1%:M 0 0 0 1 (-1) (Own1 1 0) 0 0.

(** An input of two time slices. *)
Definition ex_input : seq 'M[rat]_(1, 1) := [:: 1%:M; 0].

(** A tensor of rank 1 with one entry. *)
Definition rank1_tensor : tensor rat := Tensor [:: 1%N] [:: 0].

End Instances.

(** ** Vocabulary of the further properties *)

Section Measures.

Variable R : realFieldType.

(** A function in the sector [0, 1]: between any two arguments its
    increment has the sign of the increment of the argument and is no
    larger.  The hyperbolic tangent is such a function. *)
Definition sector (f : R -> R) : Prop :=
  forall a b, 0 <= (f a - f b) * ((a - b) - (f a - f b)).

(** The sum of the absolute values of the entries of a matrix. *)
Definition abs_sum (k : nat) (A : 'M[R]_k) : R := \sum_i \sum_j `|A i j|.

Variables (dim_in dim_out dim_internal dim_nl batch_size : nat).

Local Notation model_B :=
  (model R dim_in dim_out dim_internal dim_nl batch_size).

(** The local [H11] of [_update_model_param]. *)
Definition H11_mat (s : model_B) : 'M[R]_dim_internal :=
  lsubmx (usubmx (H_mat s)).

(** The local [P] of [_update_model_param], the block H33. *)
Definition P_mat (s : model_B) : 'M[R]_dim_internal :=
  rsubmx (rsubmx (dsubmx (dsubmx (H_mat s)))).

(** The squared length of a state difference, measured with H11. *)
Definition dist2 (s : model_B) (v : 'rV[R]_dim_internal) : R :=
  qform (H11_mat s) v.

(** The factor by which [dist2] shrinks at every step when rho >= 1. *)
Definition rate (s : model_B) : R := 1 - epsilon s / abs_sum (H11_mat s).

(** The instance seen by the batch entry [b] alone: the same parameters
    and buffers, the state of that entry, a batch of one. *)
Definition sample (s : model_B) (b : 'I_batch_size) :
    model R dim_in dim_out dim_internal dim_nl 1 :=
  Model (X s) (Y s) (B2 s) (C2 s) (D21 s) (D22 s) (D12 s)
        (epsilon s) (contraction_rate_lb s)
        (OwnB (row b (x_val s))) (x_init s) (y_init s).

End Measures.

(** ** The training script: src/run_closed-loop_sysid.py

    [train_size = int(num_signals/2)], [val_size = int(num_signals/4)],
    [test_size = int(num_signals/4)]: the quotient of two integers is a
    float, and [int] cuts it to the integer below; for a count of signals
    (a natural number below 2^53) this is the integer quotient. *)
Definition split_sizes (num_signals : nat) : nat * nat * nat :=
  (num_signals %/ 2, num_signals %/ 4, num_signals %/ 4)%N.

(** ** Further closed instances *)

Section MoreInstances.

(** A stand-in for [lstsq] where an instance needs one: A^T b, the
    least-squares solution when the columns of A are orthonormal. *)
Definition lstsq_tr (p n : nat) (A : 'M[rat]_(p, n)) (b : 'cV[rat]_p) :
    'cV[rat]_n :=
  A^T *m b.

(** A tensor of rank 1 with the one entry 1. *)
Definition unit_tensor : tensor rat := Tensor [:: 1%N] [:: 1].

(** Another input of two time slices, with the first slice of
    [ex_input]. *)
Definition ex_input_b : seq 'M[rat]_(1, 1) := [:: 1%:M; 1%:M].

End MoreInstances.

(** * Properties *)

Section Algebra.

Variable R : realFieldType.

Lemma tril_m1E (k : nat) (A : 'M[R]_k) (i j : 'I_k) :
  tril A (-1) i j = if (j < i)%N then A i j else 0.
Proof.
rewrite mxE -ltzD1 (_ : -1 + 1 = 0 :> int) //.
by rewrite subr_lt0 ltz_nat.
Qed.

Lemma addmxE (j k : nat) (A C : 'M[R]_(j, k)) (i : 'I_j) (i' : 'I_k) :
  (A + C) i i' = A i i' + C i i'.
Proof. by rewrite mxE. Qed.

Lemma entryE (k : nat) (A : 'M[R]_k) (i j : 'I_k) : entry A i j = A i j.
Proof. by rewrite /entry !insubT // => hi hj; congr (A _ _); apply: val_inj. Qed.

Lemma sqnorm_ge0 (k : nat) (v : 'rV[R]_k) : 0 <= sqnorm v.
Proof. by apply: sumr_ge0 => j _; rewrite sqr_ge0. Qed.

Lemma sqnorm_gt0 (k : nat) (v : 'rV[R]_k) : v != 0 -> 0 < sqnorm v.
Proof.
move=> v0; rewrite lt_neqAle sqnorm_ge0 andbT eq_sym.
apply: contra v0 => /eqP s0; apply/eqP/rowP => j; rewrite mxE.
have /psumr_eq0P h : forall j : 'I_k, true -> 0 <= v 0 j ^+ 2.
  by move=> ? _; rewrite sqr_ge0.
by move/h: s0 => /(_ j isT) /eqP; rewrite sqrf_eq0 => /eqP.
Qed.

Lemma dotE (k : nat) (v : 'rV[R]_k) : (v *m v^T) 0 0 = sqnorm v.
Proof. by rewrite mxE; apply: eq_bigr => j _; rewrite mxE expr2. Qed.

Lemma qform_gram (k : nat) (A : 'M[R]_k) (v : 'rV[R]_k) :
  qform (A^T *m A) v = sqnorm (v *m A^T).
Proof. by rewrite /qform -dotE trmx_mul trmxK !mulmxA. Qed.

Lemma qform_eye (k : nat) (v : 'rV[R]_k) : qform (eye R k) v = sqnorm v.
Proof. by rewrite /qform /eye mulmx1 dotE. Qed.

Lemma qformD (k : nat) (A C : 'M[R]_k) (v : 'rV[R]_k) :
  qform (A + C) v = qform A v + qform C v.
Proof. by rewrite /qform mulmxDr mulmxDl mxE. Qed.

Lemma qformZ (k : nat) (a : R) (A : 'M[R]_k) (v : 'rV[R]_k) :
  qform (a *: A) v = a * qform A v.
Proof. by rewrite /qform -scalemxAr -scalemxAl mxE. Qed.

Lemma qformN (k : nat) (A : 'M[R]_k) (v : 'rV[R]_k) :
  qform (- A) v = - qform A v.
Proof. by rewrite /qform mulmxN mulNmx mxE. Qed.

Lemma qform_bform (k : nat) (A : 'M[R]_k) (v : 'rV[R]_k) :
  qform A v = bform A v v.
Proof. by []. Qed.

Lemma bform_tr (j k : nat) (A : 'M[R]_(j, k)) (u : 'rV[R]_j) (v : 'rV[R]_k) :
  bform A^T v u = bform A u v.
Proof.
rewrite /bform -[in RHS](trmxK (u *m A *m v^T)) [in RHS]mxE.
by rewrite !trmx_mul trmxK mulmxA.
Qed.

Lemma bformDl (j k : nat) (A : 'M[R]_(j, k)) (u u' : 'rV[R]_j)
    (v : 'rV[R]_k) :
  bform A (u + u') v = bform A u v + bform A u' v.
Proof. by rewrite /bform !mulmxDl mxE. Qed.

Lemma bformDr (j k : nat) (A : 'M[R]_(j, k)) (u : 'rV[R]_j)
    (v v' : 'rV[R]_k) :
  bform A u (v + v') = bform A u v + bform A u v'.
Proof. by rewrite /bform linearD /= mulmxDr mxE. Qed.

Lemma bformNl (j k : nat) (A : 'M[R]_(j, k)) (u : 'rV[R]_j) (v : 'rV[R]_k) :
  bform A (- u) v = - bform A u v.
Proof. by rewrite /bform !mulNmx mxE. Qed.

Lemma bformNr (j k : nat) (A : 'M[R]_(j, k)) (u : 'rV[R]_j) (v : 'rV[R]_k) :
  bform A u (- v) = - bform A u v.
Proof. by rewrite /bform linearN /= mulmxN mxE. Qed.

Lemma bformDm (j k : nat) (A C : 'M[R]_(j, k)) (u : 'rV[R]_j)
    (v : 'rV[R]_k) :
  bform (A + C) u v = bform A u v + bform C u v.
Proof. by rewrite /bform mulmxDr mulmxDl mxE. Qed.

Lemma bformNm (j k : nat) (A : 'M[R]_(j, k)) (u : 'rV[R]_j) (v : 'rV[R]_k) :
  bform (- A) u v = - bform A u v.
Proof. by rewrite /bform mulmxN mulNmx mxE. Qed.

Lemma bformZm (j k : nat) (a : R) (A : 'M[R]_(j, k)) (u : 'rV[R]_j)
    (v : 'rV[R]_k) :
  bform (a *: A) u v = a * bform A u v.
Proof. by rewrite /bform -scalemxAr -scalemxAl mxE. Qed.

Lemma bform0l (j k : nat) (A : 'M[R]_(j, k)) (v : 'rV[R]_k) :
  bform A 0 v = 0.
Proof. by rewrite /bform !mul0mx mxE. Qed.

Lemma bform0r (j k : nat) (A : 'M[R]_(j, k)) (u : 'rV[R]_j) :
  bform A u 0 = 0.
Proof. by rewrite /bform trmx0 mulmx0 mxE. Qed.

(** The bilinear form of a matrix cut in three by three blocks, as
    [split_rows] and [split_cols] cut it. *)
Lemma bform_blocks (a b c : nat) (H : 'M[R]_(a + (b + c)))
    (u1 v1 : 'rV[R]_a) (u2 v2 : 'rV[R]_b) (u3 v3 : 'rV[R]_c) :
  let '(h1, h2, h3) := split_rows H in
  let '(H11, H12, H13) := split_cols h1 in
  let '(H21, H22, H23) := split_cols h2 in
  let '(H31, H32, H33) := split_cols h3 in
  bform H (row_mx u1 (row_mx u2 u3)) (row_mx v1 (row_mx v2 v3)) =
    bform H11 u1 v1 + bform H12 u1 v2 + bform H13 u1 v3
    + (bform H21 u2 v1 + bform H22 u2 v2 + bform H23 u2 v3)
    + (bform H31 u3 v1 + bform H32 u3 v2 + bform H33 u3 v3).
Proof.
rewrite /split_rows /split_cols /bform.
rewrite -{1}(vsubmxK H) -{1}(vsubmxK (dsubmx H)).
rewrite !mul_row_col.
rewrite -{1}(hsubmxK (usubmx H)) -{1}(hsubmxK (rsubmx (usubmx H))).
rewrite -{1}(hsubmxK (usubmx (dsubmx H))).
rewrite -{1}(hsubmxK (rsubmx (usubmx (dsubmx H)))).
rewrite -{1}(hsubmxK (dsubmx (dsubmx H))).
rewrite -{1}(hsubmxK (rsubmx (dsubmx (dsubmx H)))).
rewrite !mul_mx_row !add_row_mx !tr_row_mx !mul_row_col !mulmxDl !addmxE.
by rewrite !addrA; ring.
Qed.

Lemma sqnorm_row_mx (j k : nat) (u : 'rV[R]_j) (v : 'rV[R]_k) :
  sqnorm (row_mx u v) = sqnorm u + sqnorm v.
Proof.
rewrite /sqnorm big_split_ord /=; congr (_ + _); apply: eq_bigr => i _.
  by rewrite row_mxEl.
by rewrite row_mxEr.
Qed.

Lemma sqnorm0 (k : nat) : sqnorm (0 : 'rV[R]_k) = 0.
Proof. by rewrite /sqnorm big1 // => j _; rewrite mxE expr0n. Qed.

(** A matrix whose quadratic form is positive away from zero has a trivial
    kernel, hence is invertible. *)
Lemma posdef_unitmx (k : nat) (A : 'M[R]_k) : posdef A -> A \in unitmx.
Proof.
move=> pdA; rewrite -row_free_unit -kermx_eq0.
apply/eqP/row_matrixP => i; rewrite row0.
apply/eqP/negPn/negP => r0.
have := pdA _ r0.
by rewrite /qform -row_mul mulmx_ker row0 mul0mx mxE ltxx.
Qed.

Lemma qform_tr (k : nat) (A : 'M[R]_k) (v : 'rV[R]_k) :
  qform A^T v = qform A v.
Proof.
rewrite /qform -[in RHS](trmxK (v *m A *m v^T)) [in RHS]mxE.
by rewrite !trmx_mul trmxK mulmxA.
Qed.

End Algebra.

(** ** The parameterization *)

Section Parameterization.

Variable R : realFieldType.
Variables (dim_in dim_out dim_internal dim_nl batch_size : nat).

Local Notation n := dim_internal.
Local Notation l := dim_nl.
Local Notation model := (model R dim_in dim_out dim_internal dim_nl batch_size).

Implicit Types s : model.

Lemma update_model_paramE s :
  update_model_param s =
    if E (derived_of s) \in unitmx then Ok (derived_of s)
    else Raise LinAlgError.
Proof.
by rewrite /update_model_param /inverse /derived_of /=; case: ifP.
Qed.

Lemma spec_HE s : spec_H s = H_mat s.
Proof.
apply/matrixP => i j; rewrite /H_mat /eye_mask_H /eye !mxE.
congr (_ + _); first by apply: eq_bigr => k _; rewrite mxE.
by rewrite -mulr_natr; case: (i == j); rewrite ?mulr1 ?mulr0.
Qed.

Lemma H_mat_sym s : symmetric (H_mat s).
Proof.
rewrite /symmetric /H_mat /eye_mask_H /eye linearD /= trmx_mul trmxK.
by rewrite linearZ /= trmx1.
Qed.

Lemma qform_H_mat s (v : 'rV[R]_(n + (l + n))) :
  qform (H_mat s) v = sqnorm (v *m (X s)^T) + epsilon s * sqnorm v.
Proof. by rewrite /H_mat qformD qform_gram qformZ qform_eye. Qed.

Lemma H_mat_ge s (v : 'rV[R]_(n + (l + n))) :
  epsilon s * sqnorm v <= qform (H_mat s) v.
Proof. by rewrite qform_H_mat lerDr sqnorm_ge0. Qed.

Lemma H_mat_posdef s : 0 < epsilon s -> posdef (H_mat s).
Proof.
move=> e0 v v0; apply: lt_le_trans (H_mat_ge s v).
by rewrite mulr_gt0 // sqnorm_gt0.
Qed.

(** The diagonal blocks of [H_mat] inherit its lower bound. *)
Lemma H11_ge s (v : 'rV[R]_n) :
  epsilon s * sqnorm v <= qform (lsubmx (usubmx (H_mat s))) v.
Proof.
rewrite qform_bform; have := bform_blocks (H_mat s) v v (0 : 'rV_l) 0 (0 : 'rV_n) 0.
rewrite /split_rows /split_cols !bform0l !bform0r !addr0 => <-.
rewrite -qform_bform; apply: le_trans (H_mat_ge _ _).
by rewrite !sqnorm_row_mx !sqnorm0 !addr0.
Qed.

Lemma H22_ge s (v : 'rV[R]_l) :
  epsilon s * sqnorm v
    <= qform (lsubmx (rsubmx (usubmx (dsubmx (H_mat s))))) v.
Proof.
rewrite qform_bform; have := bform_blocks (H_mat s) (0 : 'rV_n) 0 v v (0 : 'rV_n) 0.
rewrite /split_rows /split_cols !bform0l !bform0r !addr0 !add0r => <-.
rewrite -qform_bform; apply: le_trans (H_mat_ge _ _).
by rewrite !sqnorm_row_mx !sqnorm0 !addr0 !add0r.
Qed.

Lemma H33_ge s (v : 'rV[R]_n) :
  epsilon s * sqnorm v
    <= qform (rsubmx (rsubmx (dsubmx (dsubmx (H_mat s))))) v.
Proof.
rewrite qform_bform; have := bform_blocks (H_mat s) (0 : 'rV_n) 0 (0 : 'rV_l) 0 v v.
rewrite /split_rows /split_cols !bform0l !bform0r !addr0 !add0r => <-.
rewrite -qform_bform; apply: le_trans (H_mat_ge _ _).
by rewrite !sqnorm_row_mx !sqnorm0 !add0r.
Qed.

(** The skew part [Y - Y^T] of [E] does not contribute to its quadratic
    form. *)
Lemma qform_E s (v : 'rV[R]_n) :
  qform (E (derived_of s)) v =
    half R * (qform (lsubmx (usubmx (H_mat s))) v
              + contraction_rate_lb s
                * qform (rsubmx (rsubmx (dsubmx (dsubmx (H_mat s))))) v).
Proof.
rewrite /derived_of /= qformZ -addrA !qformD qformZ qformN qform_tr.
by rewrite subrr addr0.
Qed.

Lemma half_gt0 : 0 < half R.
Proof. by rewrite /half invr_gt0 ltr0n. Qed.

Lemma E_ge s (v : 'rV[R]_n) :
  0 <= contraction_rate_lb s ->
  half R * (1 + contraction_rate_lb s) * epsilon s * sqnorm v
    <= qform (E (derived_of s)) v.
Proof.
move=> r0; rewrite qform_E -!mulrA ler_pM2l ?half_gt0 //.
rewrite mulrDl mul1r lerD ?H11_ge //.
by rewrite ler_wpM2l // H33_ge.
Qed.

Lemma E_posdef s :
  0 < epsilon s -> 0 <= contraction_rate_lb s -> posdef (E (derived_of s)).
Proof.
move=> e0 r0 v v0; apply: lt_le_trans (E_ge v r0).
rewrite !mulr_gt0 ?half_gt0 ?sqnorm_gt0 //.
by rewrite ltr_wpDr // ltr01.
Qed.

Lemma E_unitmx s :
  0 < epsilon s -> 0 <= contraction_rate_lb s ->
  E (derived_of s) \in unitmx.
Proof. by move=> e0 r0; apply/posdef_unitmx/E_posdef. Qed.

Lemma H_mat_diag_gt0 s (i : 'I_(n + (l + n))) :
  0 < epsilon s -> 0 < H_mat s i i.
Proof.
move=> e0; rewrite -spec_HE mxE eqxx ltr_wpDl //.
by apply: sumr_ge0 => k _; rewrite -expr2 sqr_ge0.
Qed.

Lemma entry_at (k : nat) (A : 'M[R]_k) (i j : 'I_k) (r c : nat) :
  r = i -> c = j -> entry A r c = A i j.
Proof. by move=> -> ->; rewrite entryE. Qed.

(** C1: with epsilon > 0 and rho > 0 the parameterization returns, and the
    matrices it sets are the blocks of H = X^T X + epsilon I cut with sizes
    (n, l, n): F = H31, B1 = H32, E = 0.5 (H11 + rho H33 + Y - Y^T),
    Lambda = 0.5 diag(H22), D11 = - (strictly lower part of H22),
    C1 = - H21.  Blocks are read off H by row and column numbers. *)
Theorem update_model_param_blocks s :
  0 < epsilon s -> 0 < contraction_rate_lb s ->
  exists d : derived R dim_internal dim_nl,
    update_model_param s = Ok d /\
    let H := spec_H s in
    let rho := contraction_rate_lb s in
    (forall i j : 'I_n, F d i j = entry H (n + l + i) j) /\
    (forall (i : 'I_n) (j : 'I_l), B1 d i j = entry H (n + l + i) (n + j)) /\
    (forall i j : 'I_n,
       E d i j = half R * (entry H i j
                           + rho * entry H (n + l + i) (n + l + j)
                           + Y s i j - Y s j i)) /\
    (forall i : 'I_l, Lambda d 0 i = half R * entry H (n + i) (n + i)) /\
    (forall i j : 'I_l,
       D11 d i j = if (j < i)%N then - entry H (n + i) (n + j) else 0) /\
    (forall (i : 'I_l) (j : 'I_n), C1 d i j = - entry H (n + i) j).
Proof.
move=> e0 r0; exists (derived_of s).
rewrite update_model_paramE E_unitmx // 1?ltW //; split=> //=.
rewrite spec_HE; move: (H_mat s) => H.
do ![split] => [i j|i j|i j|i|i j|i j].
- by rewrite !mxE; symmetry; apply: entry_at; rewrite //= addnA.
- by rewrite !mxE; symmetry; apply: entry_at; rewrite //= addnA.
- rewrite !mxE; congr (_ * (_ + _ * _ + _ - _)); symmetry.
    exact: entry_at.
  by apply: entry_at; rewrite //= addnA.
- by rewrite !mxE; congr (_ * _); symmetry; apply: entry_at.
- rewrite mxE tril_m1E; case: ifP => _; last by rewrite oppr0.
  by rewrite !mxE; congr (- _); symmetry; apply: entry_at.
- by rewrite !mxE; congr (- _); symmetry; apply: entry_at.
Qed.

(** C2: with epsilon > 0 and rho > 0, H = X^T X + epsilon I is symmetric
    positive definite, every coordinate of Lambda is positive, and E is
    invertible, [E.inverse()] returning a two-sided inverse of it; this for
    all values of the trainable parameters. *)
Theorem parameterization_invariants s :
  0 < epsilon s -> 0 < contraction_rate_lb s ->
  [/\ symmetric (spec_H s), posdef (spec_H s) &
      exists d : derived R dim_internal dim_nl,
        [/\ update_model_param s = Ok d,
            forall i, 0 < Lambda d 0 i,
            E d \in unitmx,
            E_inv d *m E d = 1%:M & E d *m E_inv d = 1%:M]].
Proof.
move=> e0 r0; rewrite spec_HE; split; first exact: H_mat_sym.
  exact: H_mat_posdef.
have uE := E_unitmx e0 (ltW r0).
exists (derived_of s); split; rewrite ?update_model_paramE ?uE //.
- move=> i /=; have := H_mat_diag_gt0 (rshift n (lshift n i)) e0.
  by move: (H_mat s) => H hH; rewrite !mxE mulr_gt0 ?half_gt0.
- exact: (mulVmx uE).
- exact: (mulmxV uE).
Qed.

End Parameterization.

(** ** The one-step recursion *)

Section Step.

Variable R : realFieldType.
Variable tanh : R -> R.
Variables (dim_in dim_out dim_internal dim_nl batch_size : nat).

Local Notation n := dim_internal.
Local Notation l := dim_nl.
Local Notation m := dim_in.
Local Notation p := dim_out.
Local Notation B := batch_size.
Local Notation model := (model R dim_in dim_out dim_internal dim_nl batch_size).
Local Notation derived := (derived R dim_internal dim_nl).

Implicit Types (s : model) (d : derived) (u : 'M[R]_(B, m)) (w : 'M[R]_(B, l)).

Lemma linear_row (b k o : nat) (a : 'M[R]_(b, k)) (W : 'M[R]_(o, k))
    (i : 'I_o) (r : 'I_b) :
  linear a (row i W) r 0 = linear a W r i.
Proof. by rewrite /linear !mxE; apply: eq_bigr => j _; rewrite !mxE. Qed.

Lemma w_stepE s d u w (i : 'I_l) (b : 'I_B) (j : 'I_l) :
  w_step tanh s d u w i b j =
    w b j + (if i == j then tanh (v_of s d u w b i / Lambda d 0 i) else 0).
Proof.
rewrite /w_step /v_of /eye_mask_w /eye addmxE; congr (_ + _).
rewrite 3!mxE !addmxE !linear_row.
by case: (i == j); rewrite ?mul1r ?mul0r.
Qed.

(** With a strictly lower triangular [D11], coordinate [i] of [v_of] reads
    only the coordinates of [w] before [i]. *)
Lemma v_of_prefix s d u w w' (b : 'I_B) (i : 'I_l) :
  strictly_lower (D11 d) ->
  (forall j : 'I_l, (j < i)%N -> w b j = w' b j) ->
  v_of s d u w b i = v_of s d u w' b i.
Proof.
move=> tri eqw; rewrite /v_of /linear !mxE; congr (_ + _ + _).
apply: eq_bigr => j _; rewrite !mxE.
case: (ltnP j i) => [/eqw -> //|/tri ->].
by rewrite !mulr0.
Qed.

(** The invariant of the loop of [forward]: after the first [k] turns the
    first [k] coordinates of [w] solve their equations and the others are
    still zero. *)
Lemma solve_w_prefix s d u (k : nat) :
  strictly_lower (D11 d) -> (k <= l)%N ->
  let w := foldl (w_step tanh s d u) 0 (take k (enum 'I_l)) in
  forall (b : 'I_B) (i : 'I_l),
    w b i = if (i < k)%N then tanh (v_of s d u w b i / Lambda d 0 i) else 0.
Proof.
move=> tri; elim: k => [_|k IH lt_kl] /= b i.
  by rewrite take0 /= mxE.
pose ik := Ordinal lt_kl.
rewrite (take_nth ik) ?size_enum_ord // -cats1 foldl_cat /=.
have -> : nth ik (enum 'I_l) k = ik by rewrite -[k]/(val ik) nth_ord_enum.
move: (IH (ltnW lt_kl)) => /=.
set w := foldl _ _ _ => IHw.
have same (j : 'I_l) : j != ik -> w_step tanh s d u w ik b j = w b j.
  by rewrite w_stepE eq_sym => /negPf ->; rewrite addr0.
have pre : (i <= k)%N ->
    v_of s d u (w_step tanh s d u w ik) b i = v_of s d u w b i.
  move=> le_ik; apply: v_of_prefix => // j lt_ji; apply: same.
  by apply/eqP => ejk; move: (leq_trans lt_ji le_ik); rewrite ejk /= ltnn.
rewrite ltnS leq_eqVlt; case: (ltngtP i k) => [lt_ik|gt_ik|eq_ik] /=.
- rewrite same ?pre ?(ltnW lt_ik) //; last by rewrite IHw lt_ik.
  by apply/eqP => eik; move: lt_ik; rewrite eik /= ltnn.
- rewrite same; last by rewrite IHw ltnNge (ltnW gt_ik).
  by apply/eqP => eik; move: gt_ik; rewrite eik /= ltnn.
- rewrite pre ?eq_ik // w_stepE IHw eq_ik ltnn add0r.
  by have <- : i = ik; [apply: val_inj | rewrite eqxx].
Qed.

Lemma solve_w_fixpoint s d u :
  strictly_lower (D11 d) ->
  let w := solve_w tanh s d u in
  forall (b : 'I_B) (i : 'I_l),
    w b i = tanh (v_of s d u w b i / Lambda d 0 i).
Proof.
move=> tri /= b i; have := solve_w_prefix s u tri (leqnn l) b i.
by rewrite /= take_oversize ?size_enum_ord // ltn_ord.
Qed.

Lemma D11_strictly_lower s : strictly_lower (D11 (derived_of s)).
Proof.
by move=> i j le_ij; rewrite /= mxE tril_m1E ltnNge le_ij /= oppr0.
Qed.

Lemma update_model_param_Ok s d :
  update_model_param s = Ok d ->
  d = derived_of s /\ E (derived_of s) \in unitmx.
Proof. by rewrite update_model_paramE; case: ifP => // uE [<-]. Qed.

(** C3: the vector [w] left by the loop of [forward] solves the implicit
    equation w = tanh(Lambda^-1 (C1 x + D11 w + D12 u)) exactly: put back
    into the right-hand side it is reproduced, coordinate by coordinate and
    for every batch entry. *)
Theorem forward_w_fixpoint s u d :
  update_model_param s = Ok d ->
  let w := solve_w tanh s d u in
  forall (b : 'I_B) (i : 'I_l),
    w b i = tanh ((linear (x_val s) (C1 d) + linear w (D11 d)
                   + linear u (D12 s)) b i / Lambda d 0 i).
Proof.
move=> /update_model_param_Ok [-> _].
exact/solve_w_fixpoint/D11_strictly_lower.
Qed.

Lemma tr_linear (b k o : nat) (a : 'M[R]_(b, k)) (W : 'M[R]_(o, k)) :
  (linear a W)^T = W *m a^T.
Proof. by rewrite /linear trmx_mul trmxK. Qed.

(** C4: [forward] computes x_next = E^-1 (F x + B1 w + B2 u), binds [self.x]
    to it, and returns y = C2 x_next + D21 w + D22 u, computed from the
    state after the update.  Vectors are written as columns, one per batch
    entry. *)
Theorem forward_step s u d :
  update_model_param s = Ok d ->
  exists (x_next : 'M[R]_(B, n)) (y : 'M[R]_(B, p)),
    let w := solve_w tanh s d u in
    [/\ forward tanh s u = Ok (set_x s (OwnB x_next), y),
        x_next^T = E_inv d *m (F d *m (x_val s)^T + B1 d *m w^T
                               + B2 s *m u^T),
        E d *m x_next^T = F d *m (x_val s)^T + B1 d *m w^T + B2 s *m u^T,
        x_val (set_x s (OwnB x_next)) = x_next
      & y^T = C2 s *m x_next^T + D21 s *m w^T + D22 s *m u^T].
Proof.
move=> upd; rewrite /forward upd /=.
set x_next := linear _ (E_inv d).
exists x_next, (linear x_next (C2 s) + linear (solve_w tanh s d u) (D21 s)
                + linear u (D22 s)).
have eq_next : x_next^T
    = E_inv d *m (F d *m (x_val s)^T + B1 d *m (solve_w tanh s d u)^T
                  + B2 s *m u^T).
  by rewrite tr_linear !linearD /= !tr_linear.
split=> //; last by rewrite !linearD /= !tr_linear.
rewrite eq_next; case/update_model_param_Ok: upd => -> uE.
by rewrite mulmxA /= mulmxV // mul1mx.
Qed.

Lemma forwardE s u :
  forward tanh s u =
    if E (derived_of s) \in unitmx then Ok (step tanh s u, out_y tanh s u)
    else Raise LinAlgError.
Proof. by rewrite /forward update_model_paramE; case: ifP. Qed.

Lemma derived_of_set_x s xb : derived_of (set_x s xb) = derived_of s.
Proof. by []. Qed.

Lemma forward_Ok s u :
  0 < epsilon s -> 0 <= contraction_rate_lb s ->
  forward tanh s u = Ok (step tanh s u, out_y tanh s u).
Proof. by move=> e0 r0; rewrite forwardE E_unitmx. Qed.

End Step.

(** ** The sequence runner *)

Section Run.

Variable R : realFieldType.
Variable tanh : R -> R.
Variables (dim_in dim_out dim_internal dim_nl batch_size : nat).

Local Notation n := dim_internal.
Local Notation l := dim_nl.
Local Notation m := dim_in.
Local Notation p := dim_out.
Local Notation B := batch_size.
Local Notation model := (model R dim_in dim_out dim_internal dim_nl batch_size).

Local Notation stepf :=
  (@step R tanh dim_in dim_out dim_internal dim_nl batch_size).

Implicit Types (s : model) (u : 'M[R]_(B, m)) (us : seq 'M[R]_(B, m)).
Implicit Types (ys : seq 'M[R]_(B, p)).

(** The loop reads the input only at the indices it runs over. *)
Lemma run_loop_ext (ts : seq nat) us us' (st : model * seq 'M[R]_(B, p)) :
  {in ts, forall t, nth 0 us t = nth 0 us' t} ->
  run_loop tanh ts us st = run_loop tanh ts us' st.
Proof.
elim: ts st => [//|t ts IH] st eq_us /=.
rewrite (eq_us t) ?mem_head //; case: (forward _ _ _) => //= r.
by apply: IH => t' t'_in; apply: eq_us; rewrite inE t'_in orbT.
Qed.

(** [run] does not read the last time slice of its input. *)
Lemma run_last us u u' s : run tanh s (rcons us u) = run tanh s (rcons us u').
Proof.
rewrite /run !size_rcons /=; apply: run_loop_ext => t.
by rewrite mem_iota add0n /= => lt_t; rewrite !nth_rcons lt_t.
Qed.

(** [run] starts from [x_init], whatever [self.x] was bound to. *)
Lemma run_set_x s xb us : run tanh (set_x s xb) us = run tanh s us.
Proof. by []. Qed.

Lemma foldl_step_params s us :
  epsilon (foldl stepf s us) = epsilon s
  /\ contraction_rate_lb (foldl stepf s us) = contraction_rate_lb s.
Proof. by elim/last_ind: us => [//|vs v]; rewrite -cats1 foldl_cat. Qed.

(** The loop of [run] from time [k], when no inversion fails: [st t] is the
    state after [t] steps from [x_init] along [us]. *)
Lemma run_loop_total s us (k j : nat) ys :
  0 < epsilon s -> 0 <= contraction_rate_lb s ->
  (k + j <= size us)%N ->
  let st t := foldl stepf (reset s) (take t us) in
  let f t := out_y tanh (st t) (nth 0 us t) in
  run_loop tanh (iota k j) us (st k, ys) =
    Ok (st (k + j)%N, ys ++ [seq f t | t <- iota k j]).
Proof.
move=> e0 r0; elim: j k ys => [|j IH] k ys le_kj /=.
  by rewrite addn0 cats0.
have lt_k : (k < size us)%N by rewrite (leq_trans _ le_kj) // -addSnnS leq_addr.
have [pe pr] := foldl_step_params (reset s) (take k us).
rewrite forward_Ok ?pe ?pr //=.
have := IH k.+1 (rcons ys (out_y tanh (foldl stepf (reset s) (take k us))
                                 (nth 0 us k))).
rewrite /= (take_nth 0 lt_k) -[rcons (take _ _) _]cats1 foldl_cat /= => ->.
  by rewrite addSnnS.
by rewrite addSnnS cat_rcons.
Qed.

(** C5: on an input of T >= 1 time slices [run] starts from [x_init], logs
    [y_init] at time 0, then for t = 0 .. T-2 calls [forward] on slice t
    and logs its output at time t+1; it returns T outputs, and the slice
    T-1 is never read: replacing it changes neither the outputs nor the
    final state.  [st t] is the instance after [t] steps. *)
Theorem run_trajectory s us :
  0 < epsilon s -> 0 < contraction_rate_lb s -> (0 < size us)%N ->
  exists (st : nat -> model) (ys : seq 'M[R]_(B, p)),
    [/\ run tanh s us = Ok (st (size us).-1, ys),
        st 0%N = reset s /\ x_val (st 0%N) = bcast B (x_init s),
        size ys = size us /\ nth 0 ys 0 = bcast B (y_init s),
        forall t, (t.+1 < size us)%N ->
          forward tanh (st t) (nth 0 us t) = Ok (st t.+1, nth 0 ys t.+1)
      & forall u', run tanh s (rcons (take (size us).-1 us) u')
                   = run tanh s us].
Proof.
move=> e0 /ltW r0 T0.
pose st t := foldl stepf (reset s) (take t us).
pose f t := out_y tanh (st t) (nth 0 us t).
exists st, (bcast B (y_init s) :: [seq f t | t <- iota 0 (size us).-1]).
split.
- rewrite /run; have /= := @run_loop_total s us 0 (size us).-1 _ e0 r0.
  by rewrite add0n take0 /=; apply; rewrite leq_pred.
- by rewrite /st take0.
- by rewrite /= size_map size_iota prednK.
- move=> t lt_t; have lt_t' : (t < (size us).-1)%N by rewrite -ltnS prednK.
  have [pe pr] := foldl_step_params (reset s) (take t us).
  rewrite forward_Ok ?pe ?pr //=.
  rewrite (nth_map 0%N) ?size_iota // nth_iota // add0n.
  rewrite /st (take_nth 0) ?(ltn_trans _ lt_t) //.
  by rewrite -cats1 foldl_cat.
- move=> u'; rewrite -[in RHS](take_size us) -[in take (size us)](prednK T0).
  by rewrite (take_nth 0) ?prednK //; apply: run_last.
Qed.

End Run.

(** ** Errors, construction and the life of the buffers *)

Section Lifecycle.

Variable R : realFieldType.
Variable tanh : R -> R.
Variable lstsq : forall p n : nat, 'M[R]_(p, n) -> 'cV[R]_p -> 'cV[R]_n.
Variables (dim_in dim_out dim_internal dim_nl batch_size : nat).

Local Notation n := dim_internal.
Local Notation l := dim_nl.
Local Notation m := dim_in.
Local Notation p := dim_out.
Local Notation B := batch_size.
Local Notation model := (model R dim_in dim_out dim_internal dim_nl batch_size).

Implicit Types (s : model) (u : 'M[R]_(B, m)) (us : seq 'M[R]_(B, m)).
Implicit Types (ys : seq 'M[R]_(B, p)).

(** C7, as the code has it: [forward] raises exactly when E is singular, and
    what it raises is the linear algebra error of [E.inverse()]; it never
    raises a SingularMatrix error carrying a condition number, and for
    every invertible E, however badly conditioned, it returns. *)
Theorem forward_raises s u :
  forward tanh s u =
    (if E (derived_of s) \in unitmx then Ok (step tanh s u, out_y tanh s u)
     else Raise LinAlgError)
  /\ forall c : R, forward tanh s u <> Raise (SingularMatrix c).
Proof.
by split=> [|c]; rewrite forwardE //; case: ifP.
Qed.

(** C8, as the code has it: the constructor checks neither epsilon nor rho.
    Whether it returns does not depend on them, and the instance keeps them
    as given.  An initial state given as a tensor is accepted exactly when
    it has [dim_internal] entries, whatever its rank; another tensor is
    refused by [reshape] (RuntimeError), a value that is not a tensor by
    the assertion.  InvalidConfiguration is never raised. *)
Theorem init_checks Z_X Z_Y Z_B2 Z_C2 Z_D21 Z_D22 Z_D12
    (isi yi : pyobj R) (std eps rho : R) :
  let mk := @init R lstsq m p n l B Z_X Z_Y Z_B2 Z_C2 Z_D21 Z_D22 Z_D12 in
  [/\ forall eps' rho', is_ok (mk isi yi std eps rho)
                        = is_ok (mk isi yi std eps' rho'),
      forall s, mk isi yi std eps rho = Ok s ->
        epsilon s = eps /\ contraction_rate_lb s = rho,
      forall t, mk (PyTensor t) yi std eps rho =
        (if numel t == n
         then Ok (Model (std *: Z_X) (std *: Z_Y) (std *: Z_B2) (std *: Z_C2)
                        (std *: Z_D21) (std *: Z_D22) (std *: Z_D12) eps rho
                        (Own1 B (\row_(j < n) nth 0 (data t) j))
                        (\row_(j < n) nth 0 (data t) j)
                        (linear (\row_(j < n) nth 0 (data t) j)
                                (std *: Z_C2)))
         else Raise RuntimeError),
      mk (PyOther R) yi std eps rho = Raise AssertionError
    & mk isi yi std eps rho <> Raise InvalidConfiguration].
Proof.
rewrite /init /reshape_row; split.
- move=> eps' rho'; case: isi => [|t|] //=; last by case: ifP.
  by case: yi => [|t|] //=; do 2![case: ifP => //=].
- move=> s; case: isi => [|t|] //=; last by case: ifP => //= _ [<-].
  case: yi => [|t|] //=; first by case=> <-.
  by do 2![case: ifP => //= _]; case=> <-.
- by move=> t /=; case: ifP.
- by [].
- case: isi => [|t|] //=; last by case: ifP.
  by case: yi => [|t|] //=; do 2![case: ifP => //=].
Qed.

Lemma forward_buffers s u s' y :
  forward tanh s u = Ok (s', y) ->
  x_init s' = x_init s /\ y_init s' = y_init s.
Proof. by rewrite forwardE; case: ifP => // _ [<- _]. Qed.

Lemma run_loop_buffers (ts : seq nat) us (st st' : model * seq 'M[R]_(B, p)) :
  (0 < size st.2)%N -> run_loop tanh ts us st = Ok st' ->
  [/\ x_init st'.1 = x_init st.1, y_init st'.1 = y_init st.1
    & nth 0 st'.2 0 = nth 0 st.2 0].
Proof.
elim: ts st => [|t ts IH] st /= sz; first by case=> <-.
case ef: (forward _ _ _) => [[s1 y1]|//] /= /IH.
rewrite /= size_rcons nth_rcons sz => /(_ isT) [-> -> ->].
by have [-> ->] := forward_buffers ef.
Qed.

Lemma run_buffers s us s' ys :
  run tanh s us = Ok (s', ys) ->
  [/\ x_init s' = x_init s, y_init s' = y_init s
    & nth 0 ys 0 = bcast B (y_init s)].
Proof. by rewrite /run => /run_loop_buffers /= /(_ isT). Qed.

Lemma reachable_buffers s0 s :
  reachable tanh s0 s -> x_init s = x_init s0 /\ y_init s = y_init s0.
Proof.
elim=> {s} // [s u s' y _ [<- <-] /forward_buffers //|s us s' ys _ [<- <-]].
by case/run_buffers.
Qed.

(** C9: the buffers [x_init] and [y_init] are those of the construction,
    [y_init] being the product of [x_init] with the [C2] of that time, and
    no call of [forward], [run] or [reset], nor a training step that
    replaces the parameters, changes them: every [run] logs the [y_init] of
    the construction at time 0, whatever [C2] has become.  (Gradient
    tracking is not part of the embedding.) *)
Theorem buffers_fixed Z_X Z_Y Z_B2 Z_C2 Z_D21 Z_D22 Z_D12
    (isi yi : pyobj R) (std eps rho : R) (s0 : model) :
  [/\ @init R lstsq m p n l B Z_X Z_Y Z_B2 Z_C2 Z_D21 Z_D22 Z_D12
         isi yi std eps rho = Ok s0 ->
       [/\ C2 s0 = std *: Z_C2, y_init s0 = linear (x_init s0) (C2 s0)
         & x_val s0 = bcast B (x_init s0)],
      forall s, reachable tanh s0 s ->
        x_init s = x_init s0 /\ y_init s = y_init s0
    & forall s us s' ys, reachable tanh s0 s ->
        run tanh s us = Ok (s', ys) ->
        nth 0 ys 0 = bcast B (y_init s0)].
Proof.
split; last 1 first.
- by move=> s us s' ys /reachable_buffers [_ <-] /run_buffers [].
- rewrite /init; case: (match isi with PyNone => _ | _ => _ end) => //= xv.
  by case=> <-.
- exact: reachable_buffers.
Qed.

(** C10, as the code has it: a call of the instance is [run]: it starts
    again from [x_init] whatever the state was, so it cannot continue from
    the current state; on an input of one time slice, the shape [forward]
    takes, it makes no step at all and returns [y_init]. *)
Theorem call_is_run s us :
  [/\ call tanh s us = run tanh s us,
      forall xb, call tanh (set_x s xb) us = call tanh s us
    & forall u, call tanh s [:: u] = Ok (reset s, [:: bcast B (y_init s)])].
Proof. by []. Qed.

End Lifecycle.

(** ** Closed instances: witnesses and counterexamples *)

Section Closed.

Local Notation model1 := (model rat 1 1 1 1 1).

Lemma step_set_x (R : realFieldType) (tanh : R -> R) (m p n l B : nat)
    (s : model R m p n l B) xb u :
  x_val (set_x s xb) = x_val s -> step tanh (set_x s xb) u = step tanh s u.
Proof.
move=> ex; rewrite /step /next_x /solve_w; congr (set_x _ (OwnB _)).
rewrite derived_of_set_x ex.
have -> : w_step tanh (set_x s xb) (derived_of s) u
          = w_step tanh s (derived_of s) u by rewrite /w_step ex.
by [].
Qed.

Lemma run_two (R : realFieldType) (tanh : R -> R) (m p n l B : nat)
    (s : model R m p n l B) u0 u1 :
  0 < epsilon s -> 0 <= contraction_rate_lb s ->
  run tanh s [:: u0; u1] =
    Ok (step tanh (reset s) u0,
        [:: bcast B (y_init s); out_y tanh (reset s) u0]).
Proof. by move=> e0 r0; rewrite /run /= forward_Ok. Qed.

Lemma ex_model_eps : 0 < epsilon ex_model.
Proof. by rewrite /= divr_gt0 // ltr0n. Qed.

Lemma ex_model_rho : 0 < contraction_rate_lb ex_model.
Proof. exact: ltr01. Qed.

Lemma ex_model_fresh : x_val ex_model = bcast 1 (x_init ex_model).
Proof. by rewrite /x_val. Qed.

Lemma ex_model_reset : x_val (reset ex_model) = x_val ex_model.
Proof. by rewrite /x_val. Qed.

Lemma singular_E : E (derived_of singular_model) = 0.
Proof.
apply/matrixP => i j; rewrite !ord1 /derived_of /H_mat /eye_mask_H /eye /=.
by rewrite trmx0 mul0mx add0r !mxE /= mulN1r subrr subrr mulr0.
Qed.

Lemma numel_rank1 : numel rank1_tensor = 1%N.
Proof. by rewrite /numel /= big_cons big_nil. Qed.

(** C7, counterexample: at rho = -1 (nothing forbids it) E is the zero
    matrix, and [forward] raises the linear algebra error of the inversion,
    which is no SingularMatrix error and carries no condition number. *)
Lemma forward_singular_counterexample :
  E (derived_of singular_model) \notin unitmx
  /\ forall (tanh : rat -> rat) (u : 'M[rat]_(1, 1)),
       forward tanh singular_model u = Raise LinAlgError
       /\ forall c : rat,
            forward tanh singular_model u <> Raise (SingularMatrix c).
Proof.
have nu : E (derived_of singular_model) \notin unitmx.
  by rewrite singular_E unitmxE det0 unitr0.
by split=> // tanh u; rewrite forwardE (negPf nu).
Qed.

(** C8, counterexample: with epsilon = -1 and rho = -1 and an initial state
    of rank 1 the constructor returns an instance. *)
Lemma init_unchecked_counterexample :
  size (shape rank1_tensor) = 1%N
  /\ exists s : model1,
       [/\ forall lstsq,
             @init rat lstsq 1 1 1 1 1 0 0 0 0 0 0 0
                   (PyTensor rank1_tensor) (PyNone rat) 1 (-1) (-1) = Ok s,
           epsilon s = -1 & contraction_rate_lb s = -1].
Proof.
split=> //; eexists; split.
- by move=> lstsq; rewrite /init /reshape_row numel_rank1 eqxx /=; reflexivity.
- by [].
- by [].
Qed.

(** C10, counterexample: on an instance still at its initial state a call
    with two time slices leaves the state exactly where one call of
    [forward] on the first slice leaves it. *)
Lemma call_one_step_counterexample :
  x_val ex_model = bcast 1 (x_init ex_model)
  /\ forall (tanh : rat -> rat) (u0 u1 : 'M[rat]_(1, 1)),
     exists s1 y ys,
       forward tanh ex_model u0 = Ok (s1, y)
       /\ call tanh ex_model [:: u0; u1] = Ok (s1, ys).
Proof.
split; first exact: ex_model_fresh.
move=> tanh u0 u1.
exists (step tanh ex_model u0), (out_y tanh ex_model u0),
  [:: bcast 1 (y_init ex_model); out_y tanh (reset ex_model) u0].
rewrite /call (run_two _ _ _ ex_model_eps (ltW ex_model_rho)).
rewrite (forward_Ok _ _ ex_model_eps (ltW ex_model_rho)).
split; first by [].
by rewrite /reset (step_set_x _ _ ex_model_reset).
Qed.

Lemma ex_model_update :
  update_model_param ex_model = Ok (derived_of ex_model).
Proof.
by rewrite update_model_paramE (E_unitmx ex_model_eps (ltW ex_model_rho)).
Qed.

(** C1, witness: the instance [ex_model]. *)
Lemma update_model_param_blocks_witness :
  0 < epsilon ex_model /\ 0 < contraction_rate_lb ex_model
  /\ exists d : derived rat 1 1,
       update_model_param ex_model = Ok d
       /\ (forall i j : 'I_1, F d i j = entry (spec_H ex_model) (1 + 1 + i) j)
       /\ (forall i j : 'I_1,
             E d i j = half rat * (entry (spec_H ex_model) i j
                                   + contraction_rate_lb ex_model
                                     * entry (spec_H ex_model)
                                             (1 + 1 + i) (1 + 1 + j)
                                   + Y ex_model i j - Y ex_model j i))
       /\ (forall i : 'I_1,
             Lambda d 0 i = half rat * entry (spec_H ex_model) (1 + i) (1 + i)).
Proof.
split; first exact: ex_model_eps.
split; first exact: ex_model_rho.
have [d [ud [hF [_ [hE [hL _]]]]]] :=
  update_model_param_blocks ex_model_eps ex_model_rho.
by exists d.
Defined.

(** C2, witness: the instance [ex_model]. *)
Lemma parameterization_invariants_witness :
  0 < epsilon ex_model /\ 0 < contraction_rate_lb ex_model
  /\ symmetric (spec_H ex_model) /\ posdef (spec_H ex_model)
  /\ exists d : derived rat 1 1,
       [/\ update_model_param ex_model = Ok d,
           forall i, 0 < Lambda d 0 i,
           E d \in unitmx,
           E_inv d *m E d = 1%:M & E d *m E_inv d = 1%:M].
Proof.
split; first exact: ex_model_eps.
split; first exact: ex_model_rho.
by have [sH pH hd] := parameterization_invariants ex_model_eps ex_model_rho.
Defined.

(** C3, witness: the instance [ex_model] and the input 1. *)
Lemma forward_w_fixpoint_witness :
  update_model_param ex_model = Ok (derived_of ex_model)
  /\ forall b i : 'I_1,
       solve_w slope_half ex_model (derived_of ex_model) 1%:M b i
       = slope_half
           ((linear (x_val ex_model) (C1 (derived_of ex_model))
             + linear (solve_w slope_half ex_model (derived_of ex_model) 1%:M)
                      (D11 (derived_of ex_model))
             + linear 1%:M (D12 ex_model)) b i
            / Lambda (derived_of ex_model) 0 i).
Proof.
split; first exact: ex_model_update.
exact: (forward_w_fixpoint slope_half 1%:M ex_model_update).
Defined.

(** C4, witness: the instance [ex_model] and the input 1. *)
Lemma forward_step_witness :
  update_model_param ex_model = Ok (derived_of ex_model)
  /\ exists (x_next : 'M[rat]_(1, 1)) (y : 'M[rat]_(1, 1)),
       forward slope_half ex_model 1%:M
       = Ok (set_x ex_model (OwnB x_next), y)
       /\ y^T = C2 ex_model *m x_next^T
                + D21 ex_model
                  *m (solve_w slope_half ex_model (derived_of ex_model)
                              1%:M)^T
                + D22 ex_model *m 1%:M^T.
Proof.
split; first exact: ex_model_update.
have [x_next [y [fw _ _ _ hy]]] :=
  forward_step slope_half 1%:M ex_model_update.
by exists x_next, y.
Defined.

(** C5, witness: the instance [ex_model] and an input of two slices. *)
Lemma run_trajectory_witness :
  0 < epsilon ex_model /\ 0 < contraction_rate_lb ex_model
  /\ (0 < size ex_input)%N
  /\ exists (st : nat -> model1) (ys : seq 'M[rat]_(1, 1)),
       [/\ run slope_half ex_model ex_input = Ok (st 1%N, ys),
           st 0%N = reset ex_model,
           size ys = 2%N
         & nth 0 ys 0 = bcast 1 (y_init ex_model)].
Proof.
split; first exact: ex_model_eps.
split; first exact: ex_model_rho.
split; first by [].
have [st [ys [hr [h0 _] [hs hy] _ _]]] :=
  @run_trajectory rat slope_half 1 1 1 1 1 ex_model ex_input
                  ex_model_eps ex_model_rho isT.
by exists st, ys.
Defined.

End Closed.

(** ** Symmetric matrices cut in blocks *)

Section Blocks.
Variable R : realFieldType.

Lemma sym_entry (k : nat) (A : 'M[R]_k) (i j : 'I_k) :
  symmetric A -> A i j = A j i.
Proof. by move=> sA; rewrite -[in LHS]sA mxE. Qed.

Lemma sum_bform (o k : nat) (W : 'M[R]_(o, k)) (a : 'rV[R]_o) (c : 'rV[R]_k) :
  \sum_i a 0 i * (linear c W) 0 i = bform W a c.
Proof.
rewrite /bform /linear -mulmxA mxE; apply: eq_bigr => i _; congr (_ * _).
by rewrite -[c *m W^T]trmxK trmx_mul trmxK mxE.
Qed.

Lemma qform_diag_mx (k : nat) (v w : 'rV[R]_k) :
  qform (diag_mx v) w = \sum_i v 0 i * w 0 i ^+ 2.
Proof.
rewrite /qform mxE; apply: eq_bigr => i _.
by rewrite mul_mx_diag mxE [w^T _ _]mxE expr2 mulrA [X in X * _ = _]mulrC.
Qed.

(** A symmetric matrix is its strictly lower part, the transpose of it and
    its diagonal. *)
Lemma tril_decomp (k : nat) (A : 'M[R]_k) :
  symmetric A -> A = tril A (-1) + (tril A (-1))^T + diag_mx (diag A).
Proof.
move=> sA; apply/matrixP => i j.
rewrite !addmxE [(tril _ _)^T _ _]mxE !tril_m1E [diag_mx _ _ _]mxE [diag _ _ _]mxE.
case: (eqVneq i j) => [->|ne_ij]; first by rewrite ltnn !add0r mulr1n.
rewrite mulr0n addr0; move: ne_ij; rewrite -(inj_eq val_inj) neq_ltn.
case/orP => lt_ij; rewrite lt_ij ltnNge (ltnW lt_ij) /= ?addr0 ?add0r //.
exact: sym_entry.
Qed.

Lemma qform_tril (k : nat) (A : 'M[R]_k) (w : 'rV[R]_k) :
  symmetric A ->
  qform A w = 2 * qform (tril A (-1)) w + \sum_i A i i * w 0 i ^+ 2.
Proof.
move=> sA; rewrite [in LHS](tril_decomp sA) !qformD qform_tr qform_diag_mx.
rewrite mulr2n mulrDl mul1r; congr (_ + _).
by apply: eq_bigr => i _; rewrite mxE.
Qed.

Lemma row_linear (b k o : nat) (a : 'M[R]_(b, k)) (W : 'M[R]_(o, k))
    (r : 'I_b) (i : 'I_o) :
  linear a W r i = linear (row r a) W 0 i.
Proof. by rewrite /linear -row_mul [in RHS]mxE. Qed.

Lemma sector_sum (B n l : nat) (dX : 'M[R]_(B, n)) (dW : 'M[R]_(B, l))
    (C : 'M[R]_(l, n)) (D : 'M[R]_l) (lam : 'rV[R]_l) (b : 'I_B) :
  \sum_i dW b i * ((linear dX C + linear dW D) b i - lam 0 i * dW b i)
  = bform C (row b dW) (row b dX) + qform D (row b dW)
    - \sum_i lam 0 i * row b dW 0 i ^+ 2.
Proof.
rewrite qform_bform -(sum_bform C) -(sum_bform D) -big_split /= -sumrB.
apply: eq_bigr => i _.
rewrite addmxE (row_linear dX) (row_linear dW) [row b dW 0 i]mxE.
move: (dW b i) (linear _ C 0 i) (linear _ D 0 i) (lam 0 i) => w a c t.
by rewrite expr2 !mulrDr mulrN mulrCA mulrA.
Qed.

Lemma linearB_l (b k o : nat) (a a' : 'M[R]_(b, k)) (W : 'M[R]_(o, k)) :
  linear (a - a') W = linear a W - linear a' W.
Proof. by rewrite /linear mulmxBl. Qed.

Lemma sub_add3 (b k : nat) (a a' c c' e : 'M[R]_(b, k)) :
  a' + c' + e - (a + c + e) = (a' - a) + (c' - c).
Proof. by apply/matrixP => i j; rewrite !mxE; ring. Qed.

Lemma submxE (j k : nat) (A C : 'M[R]_(j, k)) (i : 'I_j) (i' : 'I_k) :
  (A - C) i i' = A i i' - C i i'.
Proof. by rewrite !mxE. Qed.

(** The blocks of a symmetric matrix across the diagonal are transposes
    of each other. *)
Lemma sym_blocks (a b c : nat) (H : 'M[R]_(a + (b + c))) :
  symmetric H ->
  [/\ lsubmx (rsubmx (usubmx H)) = (lsubmx (usubmx (dsubmx H)))^T,
      rsubmx (rsubmx (usubmx H)) = (lsubmx (dsubmx (dsubmx H)))^T,
      rsubmx (rsubmx (usubmx (dsubmx H)))
      = (lsubmx (rsubmx (dsubmx (dsubmx H))))^T
    & symmetric (lsubmx (rsubmx (usubmx (dsubmx H))))].
Proof.
move=> sH; split; apply/matrixP => i j; rewrite !mxE; exact: sym_entry.
Qed.

(** The quadratic form of a symmetric matrix cut in three by three
    blocks. *)
Lemma qform_blocks (a b c : nat) (H : 'M[R]_(a + (b + c)))
    (u1 : 'rV[R]_a) (u2 : 'rV[R]_b) (u3 : 'rV[R]_c) :
  symmetric H ->
  qform H (row_mx u1 (row_mx u2 u3)) =
    qform (lsubmx (usubmx H)) u1
    + qform (lsubmx (rsubmx (usubmx (dsubmx H)))) u2
    + qform (rsubmx (rsubmx (dsubmx (dsubmx H)))) u3
    + 2 * bform (lsubmx (usubmx (dsubmx H))) u2 u1
    + 2 * bform (lsubmx (dsubmx (dsubmx H))) u3 u1
    + 2 * bform (lsubmx (rsubmx (dsubmx (dsubmx H)))) u3 u2.
Proof.
move=> sH; have [h12 h13 h23 _] := sym_blocks sH.
have := bform_blocks H u1 u1 u2 u2 u3 u3.
rewrite /split_rows /split_cols -qform_bform => ->.
rewrite h12 h13 h23 !bform_tr !qform_bform.
move: (bform _ u1 u1) (bform _ u2 u2) (bform _ u3 u3) => q1 q2 q3.
move: (bform _ u2 u1) (bform _ u3 u1) (bform _ u3 u2) => b21 b31 b32.
by ring.
Qed.

Lemma tr_add_mul (j k o : nat) (a : 'rV[R]_k) (c : 'rV[R]_o)
    (A : 'M[R]_(j, k)) (C : 'M[R]_(j, o)) :
  (a *m A^T + c *m C^T)^T = A *m a^T + C *m c^T.
Proof. by rewrite linearD /= !trmx_mul !trmxK. Qed.

End Blocks.

(** ** Edge behaviour of the sequence runner *)

Section RunEdges.

Variable R : realFieldType.
Variable tanh : R -> R.
Variables (dim_in dim_out dim_internal dim_nl batch_size : nat).

Local Notation n := dim_internal.
Local Notation l := dim_nl.
Local Notation m := dim_in.
Local Notation p := dim_out.
Local Notation B := batch_size.
Local Notation model := (model R dim_in dim_out dim_internal dim_nl batch_size).

Local Notation stepf :=
  (@step R tanh dim_in dim_out dim_internal dim_nl batch_size).

Implicit Types (s : model) (u : 'M[R]_(B, m)) (us : seq 'M[R]_(B, m)).
Implicit Types (ys : seq 'M[R]_(B, p)).

Lemma set_x_id s : set_x s (x s) = s.
Proof. by case: s. Qed.

(** Steps change the binding of [self.x] and nothing else. *)
Lemma foldl_step_set_x s xa us :
  exists xb, foldl stepf (set_x s xa) us = set_x s xb.
Proof.
elim: us xa => [|u us IH] xa /=; first by exists xa.
exact: (IH (OwnB (next_x tanh (set_x s xa) u))).
Qed.

Lemma foldl_step_derived s us :
  derived_of (foldl stepf s us) = derived_of s.
Proof.
have [xb] := foldl_step_set_x s (x s) us.
by rewrite set_x_id => ->.
Qed.

(** The loop of [run] from time [k], when [E] is invertible. *)
Lemma run_loop_unit s us (k j : nat) ys :
  E (derived_of s) \in unitmx -> (k + j <= size us)%N ->
  let st t := foldl stepf (reset s) (take t us) in
  let f t := out_y tanh (st t) (nth 0 us t) in
  run_loop tanh (iota k j) us (st k, ys) =
    Ok (st (k + j)%N, ys ++ [seq f t | t <- iota k j]).
Proof.
move=> uE; elim: j k ys => [|j IH] k ys le_kj /=.
  by rewrite addn0 cats0.
have lt_k : (k < size us)%N by rewrite (leq_trans _ le_kj) // -addSnnS leq_addr.
rewrite forwardE foldl_step_derived uE /=.
have := IH k.+1 (rcons ys (out_y tanh (foldl stepf (reset s) (take k us))
                                 (nth 0 us k))).
rewrite /= (take_nth 0 lt_k) -[rcons (take _ _) _]cats1 foldl_cat /= => ->.
  by rewrite addSnnS.
by rewrite addSnnS cat_rcons.
Qed.

Lemma run_loop_cons (t : nat) (ts : seq nat) us
    (st : model * seq 'M[R]_(B, p)) :
  run_loop tanh (t :: ts) us st =
    (try r <- forward tanh st.1 (nth 0 us t);
     run_loop tanh ts us (r.1, rcons st.2 r.2)).
Proof. by []. Qed.

(** [run] in closed form: it raises exactly when it reaches a call of
    [forward] and [E] is singular. *)
Lemma runE s us :
  run tanh s us =
    if (size us <= 1)%N || (E (derived_of s) \in unitmx)
    then Ok (foldl stepf (reset s) (take (size us).-1 us),
             bcast B (y_init s)
             :: [seq out_y tanh (foldl stepf (reset s) (take t us)) (nth 0 us t)
                | t <- iota 0 (size us).-1])
    else Raise LinAlgError.
Proof.
case: (boolP (E (derived_of s) \in unitmx)) => [uE|nuE].
  rewrite orbT /run.
  have /= := @run_loop_unit s us 0 (size us).-1 [:: bcast B (y_init s)] uE.
  by rewrite add0n take0 /=; apply; rewrite leq_pred.
rewrite orbF /run.
case: (size us) => [|[|k]]; [by rewrite /= take0 | by rewrite /= take0 |].
rewrite -[k.+2.-1]/(k.+1) -[iota 0 k.+1]/(0%N :: iota 1 k) run_loop_cons.
by rewrite forwardE (negbTE nuE).
Qed.

Lemma run_OkE s us s' ys :
  run tanh s us = Ok (s', ys) ->
  s' = foldl stepf (reset s) (take (size us).-1 us)
  /\ ys = bcast B (y_init s)
          :: [seq out_y tanh (foldl stepf (reset s) (take t us)) (nth 0 us t)
             | t <- iota 0 (size us).-1].
Proof. by rewrite runE; case: ifP => // _ [<- <-]. Qed.

(** X1: [run] returns or raises as follows.  It returns exactly when the
    input has at most one time slice or E is invertible; the only exception
    it raises is the linear algebra error of [E.inverse()]; and on an input
    of no or one time slice it calls [forward] not at all, so that it
    returns the log of the one entry [y_init] and the state [x_init] even
    for an instance whose E is singular.  In particular the log of an empty
    input is not empty. *)
Theorem run_error_behaviour s us :
  [/\ is_ok (run tanh s us)
      = ((size us <= 1)%N || (E (derived_of s) \in unitmx)),
      forall e, run tanh s us = Raise e -> e = LinAlgError
    & (size us <= 1)%N ->
      run tanh s us = Ok (reset s, [:: bcast B (y_init s)])].
Proof.
split.
- by rewrite runE; case: ifP.
- by move=> e; rewrite runE; case: ifP => // _ [<-].
- by rewrite /run; case: (size us) => [|[|k]] //=.
Qed.

(** X2: whenever [run] returns, its log has max(1, T) entries for an
    input of T time slices: T entries for T >= 1, and one entry for the
    empty input. *)
Theorem run_log_size s us s' ys :
  run tanh s us = Ok (s', ys) -> size ys = maxn 1 (size us).
Proof.
case/run_OkE => _ ->; rewrite /= size_map size_iota.
by case: (size us) => [|k] //=; rewrite maxnE subn1 add1n.
Qed.

(** X3: [run] is strictly causal.  If two inputs agree on their first [k]
    time slices, the two logs agree on their first [k + 1] entries: the
    output at time t is determined by the inputs at the times before t, and
    the input at time t itself has no part in it. *)
Theorem run_causal s us us' (k : nat) sa sb ys ys' :
  run tanh s us = Ok (sa, ys) -> run tanh s us' = Ok (sb, ys') ->
  (k < size us)%N -> (k < size us')%N -> take k us = take k us' ->
  forall t, (t <= k)%N -> nth 0 ys t = nth 0 ys' t.
Proof.
case/run_OkE => _ -> /run_OkE [_ ->] lt_k lt_k' eq_k [//|t] lt_t /=.
have lt1 : (t < (size us).-1)%N.
  by rewrite -ltnS prednK ?(leq_trans _ lt_k) // (leq_trans lt_t).
have lt2 : (t < (size us').-1)%N.
  by rewrite -ltnS prednK ?(leq_trans _ lt_k') // (leq_trans lt_t).
rewrite !(nth_map 0%N) ?size_iota // !nth_iota // !add0n.
have -> : take t us = take t us'.
  by rewrite -(take_takel us (ltnW lt_t)) eq_k take_takel // ltnW.
suff -> : nth 0 us t = nth 0 us' t by [].
by rewrite -(nth_take 0 lt_t us) -(nth_take 0 lt_t us') eq_k.
Qed.

(** X4: [run] is repeatable.  The instance it returns differs from the
    one it was called on in the state only, and as [run] starts from
    [x_init], a second call on the returned instance with the same input
    returns the same log and the same instance again.  A [reset] before the
    call, as the training loop of src/run_closed-loop_sysid.py does before
    every [REN_G(u_batch)], changes nothing. *)
Theorem run_repeatable s us s' ys :
  run tanh s us = Ok (s', ys) ->
  [/\ exists xb, s' = set_x s xb,
      run tanh s' us = Ok (s', ys),
      run tanh (reset s') us = Ok (s', ys)
    & call tanh (reset s') us = Ok (s', ys)].
Proof.
move=> er; have [es' _] := run_OkE er.
have [xb exb] := foldl_step_set_x s (AliasInit R n B) (take (size us).-1 us).
have e' : s' = set_x s xb by rewrite es' -exb.
have h : run tanh s' us = Ok (s', ys) by rewrite [in LHS]e' run_set_x.
split; first by exists xb.
- exact: h.
- by rewrite /reset run_set_x.
- by rewrite /call /reset run_set_x.
Qed.

End RunEdges.

(** ** Batch entries *)

Section Batch.

Variable R : realFieldType.
Variable tanh : R -> R.
Variables (dim_in dim_out dim_internal dim_nl batch_size : nat).

Local Notation n := dim_internal.
Local Notation l := dim_nl.
Local Notation m := dim_in.
Local Notation p := dim_out.
Local Notation B := batch_size.
Local Notation model := (model R dim_in dim_out dim_internal dim_nl batch_size).
Local Notation derived := (derived R dim_internal dim_nl).

Implicit Types (s : model) (u : 'M[R]_(B, m)) (d : derived) (b : 'I_B).

Lemma row_linear_mx (k o : nat) (a : 'M[R]_(B, k)) (W : 'M[R]_(o, k)) b :
  row b (linear a W) = linear (row b a) W.
Proof. by rewrite /linear row_mul. Qed.

Lemma x_val_sample s b : x_val (sample s b) = row b (x_val s).
Proof. by []. Qed.

Lemma derived_of_sample s b : derived_of (sample s b) = derived_of s.
Proof. by []. Qed.

Lemma v_of_sample s d u (w : 'M[R]_(B, l)) b :
  v_of (sample s b) d (row b u) (row b w) = row b (v_of s d u w).
Proof. by rewrite /v_of x_val_sample !linearD /= !row_linear_mx. Qed.

Lemma w_step_sample s d u (w : 'M[R]_(B, l)) b (i : 'I_l) :
  w_step tanh (sample s b) d (row b u) (row b w) i
  = row b (w_step tanh s d u w i).
Proof.
apply/matrixP => r j; rewrite w_stepE v_of_sample [RHS]mxE w_stepE.
by rewrite ![row b _ r _]mxE.
Qed.

Lemma solve_w_sample s d u b :
  solve_w tanh (sample s b) d (row b u) = row b (solve_w tanh s d u).
Proof.
have e0 : (0 : 'M[R]_(1, l)) = row b (0 : 'M[R]_(B, l)).
  by apply/matrixP => r j; rewrite !mxE.
rewrite /solve_w e0.
elim: (enum 'I_l) (0 : 'M[R]_(B, l)) => [//|i w IH] w0 /=.
by rewrite w_step_sample IH.
Qed.

Lemma next_x_sample s u b :
  next_x tanh (sample s b) (row b u) = row b (next_x tanh s u).
Proof.
rewrite /next_x derived_of_sample solve_w_sample x_val_sample.
by rewrite row_linear_mx !linearD /= !row_linear_mx.
Qed.

Lemma out_y_sample s u b :
  out_y tanh (sample s b) (row b u) = row b (out_y tanh s u).
Proof.
rewrite /out_y derived_of_sample solve_w_sample next_x_sample.
by rewrite !linearD /= !row_linear_mx.
Qed.

(** X5: the entries of a batch do not interact.  [forward] on the batch
    entry [b] alone, from the state of that entry, raises when [forward] on
    the whole batch raises, and returns otherwise the row [b] of the new
    state and of the output of the whole batch. *)
Theorem forward_batch_rows s u b :
  forward tanh (sample s b) (row b u) =
    match forward tanh s u with
    | Ok (s', y) => Ok (sample s' b, row b y)
    | Raise e => Raise e
    end.
Proof.
rewrite !forwardE derived_of_sample; case: ifP => // _.
congr (Ok (_, _)); last exact: out_y_sample.
by rewrite /step /sample /= next_x_sample.
Qed.

End Batch.

(** ** The origin *)

Section Equilibrium.

Variable R : realFieldType.
Variable tanh : R -> R.
Variable lstsq : forall p n : nat, 'M[R]_(p, n) -> 'cV[R]_p -> 'cV[R]_n.
Variables (dim_in dim_out dim_internal dim_nl batch_size : nat).

Local Notation n := dim_internal.
Local Notation l := dim_nl.
Local Notation m := dim_in.
Local Notation p := dim_out.
Local Notation B := batch_size.
Local Notation model := (model R dim_in dim_out dim_internal dim_nl batch_size).
Local Notation derived := (derived R dim_internal dim_nl).
Local Notation stepf :=
  (@step R tanh dim_in dim_out dim_internal dim_nl batch_size).

Implicit Types (s : model) (d : derived).

Lemma linear0l (b k o : nat) (W : 'M[R]_(o, k)) :
  linear (0 : 'M[R]_(b, k)) W = 0.
Proof. by rewrite /linear mul0mx. Qed.

Lemma bcast0 (b k : nat) : bcast b (0 : 'rV[R]_k) = 0.
Proof. by apply/matrixP => i j; rewrite !mxE. Qed.

Lemma w_step_zero s d (i : 'I_l) :
  tanh 0 = 0 -> x_val s = 0 -> w_step tanh s d 0 0 i = 0.
Proof.
move=> t0 x0; apply/matrixP => b j; rewrite w_stepE /v_of x0 !linear0l.
by rewrite !addr0 !mxE mul0r t0 if_same addr0.
Qed.

Lemma solve_w_zero s d :
  tanh 0 = 0 -> x_val s = 0 -> solve_w tanh s d 0 = 0.
Proof.
move=> t0 x0; rewrite /solve_w.
by elim: (enum 'I_l) => [//|i w IH] /=; rewrite w_step_zero.
Qed.

Lemma next_x_zero s : tanh 0 = 0 -> x_val s = 0 -> next_x tanh s 0 = 0.
Proof.
by move=> t0 x0; rewrite /next_x solve_w_zero // x0 !linear0l !addr0 linear0l.
Qed.

Lemma out_y_zero s : tanh 0 = 0 -> x_val s = 0 -> out_y tanh s 0 = 0.
Proof.
by move=> t0 x0; rewrite /out_y solve_w_zero // next_x_zero // !linear0l !addr0.
Qed.

(** X6: the origin is an equilibrium.  For a nonlinearity that vanishes
    at 0, as [tanh] does, [forward] from the state 0 with the input 0
    leaves the state at 0 and returns the output 0: the model has no bias
    terms. *)
Theorem forward_zero_equilibrium s s' y :
  tanh 0 = 0 -> x_val s = 0 -> forward tanh s 0 = Ok (s', y) ->
  x_val s' = 0 /\ y = 0.
Proof.
move=> t0 x0; rewrite forwardE; case: ifP => // _ [<- <-].
by rewrite out_y_zero // /step /= next_x_zero.
Qed.

Lemma foldl_step_zero s (k : nat) :
  tanh 0 = 0 -> x_val s = 0 ->
  x_val (foldl stepf s (nseq k 0)) = 0.
Proof.
move=> t0; elim: k s => [//|k IH] s x0 /=.
by apply: IH; rewrite /step /= next_x_zero.
Qed.

(** X7: an instance built with the default initial state (no
    [internal_state_init], no [y_init]) and positive epsilon, rho >= 0, maps
    the zero input of T time slices to a log of zeros, whatever the draws of
    the parameters are: the constructor returns, [run] returns, the log has
    max(1, T) entries, all zero, and the final state is zero. *)
Theorem init_default_zero_run Z_X Z_Y Z_B2 Z_C2 Z_D21 Z_D22 Z_D12
    (std eps rho : R) (T : nat) :
  tanh 0 = 0 -> 0 < eps -> 0 <= rho ->
  exists s s' : model,
    [/\ @init R lstsq m p n l B Z_X Z_Y Z_B2 Z_C2 Z_D21 Z_D22 Z_D12
          (PyNone R) (PyNone R) std eps rho = Ok s,
        run tanh s (nseq T 0) = Ok (s', nseq (maxn 1 T) 0)
      & x_val s' = 0].
Proof.
move=> t0 e0 r0.
set s := Model (std *: Z_X) (std *: Z_Y) (std *: Z_B2) (std *: Z_C2)
               (std *: Z_D21) (std *: Z_D22) (std *: Z_D12) eps rho
               (Own1 B 0) 0 (linear 0 (std *: Z_C2)).
have xr0 : x_val (reset s) = 0 by rewrite /x_val /= bcast0.
have uE : E (derived_of s) \in unitmx by exact: E_unitmx.
exists s, (foldl stepf (reset s) (take (size (nseq T (0 : 'M[R]_(B, m)))).-1
                                       (nseq T 0))).
split=> //.
- rewrite runE uE orbT; congr (Ok (_, _)).
  rewrite size_nseq [y_init s]/= linear0l bcast0.
  have -> : maxn 1 T = (T.-1).+1 by case: (T) => [|k] //; rewrite maxnE subn1 add1n.
  rewrite [nseq _.+1 _]/=; congr (_ :: _).
  apply: (@eq_from_nth _ 0); first by rewrite size_map size_iota size_nseq.
  move=> t; rewrite size_map size_iota => lt_t.
  have lt_T : (t < T)%N by rewrite (leq_trans lt_t) // leq_pred.
  rewrite (nth_map 0%N) ?size_iota // nth_iota // add0n !nth_nseq lt_t lt_T.
  rewrite take_nseq ?(ltnW lt_T) //.
  by rewrite out_y_zero // foldl_step_zero.
- rewrite size_nseq take_nseq ?leq_pred //.
  exact: foldl_step_zero.
Qed.

End Equilibrium.

(** ** Further properties of the parameterization *)

Section ImplicitLayer.

Variable R : realFieldType.
Variable tanh : R -> R.
Variables (dim_in dim_out dim_internal dim_nl batch_size : nat).

Local Notation n := dim_internal.
Local Notation l := dim_nl.
Local Notation m := dim_in.
Local Notation p := dim_out.
Local Notation B := batch_size.
Local Notation model := (model R dim_in dim_out dim_internal dim_nl batch_size).
Local Notation derived := (derived R dim_internal dim_nl).

Implicit Types (s : model) (d : derived).

Lemma sym_diag_blocks (a b c : nat) (H : 'M[R]_(a + (b + c))) :
  symmetric H ->
  symmetric (lsubmx (usubmx H))
  /\ symmetric (rsubmx (rsubmx (dsubmx (dsubmx H)))).
Proof.
by move=> sH; split; apply/matrixP => i j; rewrite !mxE; exact: sym_entry.
Qed.

Lemma tr_opp (j k : nat) (A : 'M[R]_(j, k)) : (- A)^T = - A^T.
Proof. by apply/matrixP => i i'; rewrite !mxE. Qed.

Lemma sym_part (k : nat) (H1 H3 Z : 'M[R]_k) (r : R) :
  symmetric H1 -> symmetric H3 ->
  half R *: (H1 + r *: H3 + Z - Z^T) + (half R *: (H1 + r *: H3 + Z - Z^T))^T
  = H1 + r *: H3.
Proof.
move=> s1 s3; apply/matrixP => i j; rewrite !mxE.
rewrite [H1 j i]sym_entry // [H3 j i]sym_entry // /half.
move: (H1 i j) (H3 i j) (Z i j) (Z j i) => a c y y'.
by field.
Qed.

Lemma diag_mx_half (k : nat) (A : 'M[R]_k) :
  diag_mx (half R *: diag A) *+ 2 = diag_mx (diag A).
Proof.
apply/matrixP => i j; rewrite !mxE.
case: (i == j) => /=; rewrite ?mulr0n ?addr0 // !mulr1n /half.
by move: (A i i) => a; field.
Qed.

(** X8: the matrices [Lambda] and [D11] that [_update_model_param] sets
    put the block H22 of H back together: 2 diag(Lambda) - D11 - D11^T =
    H22.  This matrix is symmetric and its quadratic form is at least
    epsilon times the squared norm, so that it is positive definite for
    epsilon > 0: the condition under which the implicit equation for [w]
    is well posed. *)
Theorem implicit_layer_matrix s d :
  update_model_param s = Ok d ->
  let W := diag_mx (Lambda d) *+ 2 - D11 d - (D11 d)^T in
  [/\ W = lsubmx (rsubmx (usubmx (dsubmx (spec_H s)))),
      symmetric W
    & forall v, epsilon s * sqnorm v <= qform W v].
Proof.
case/update_model_param_Ok => -> _ /=.
have [_ _ _ sH22] := sym_blocks (H_mat_sym s).
set H22 := lsubmx (rsubmx (usubmx (dsubmx (H_mat s)))) in sH22 *.
have eW : diag_mx (half R *: diag H22) *+ 2 - - tril H22 (-1)
          - (- tril H22 (-1))^T = H22.
  rewrite diag_mx_half [in RHS](tril_decomp sH22) tr_opp !opprK.
  by rewrite -addrA addrC.
by rewrite eW spec_HE; split=> // v; exact: H22_ge.
Qed.

(** X9: for epsilon > 0 and rho >= 0 (zero included) the inversion of E
    succeeds whatever X and Y are; E + E^T = H11 + rho H33, the parameter Y
    having no part in it; and the quadratic form of E is at least
    (1 + rho) epsilon / 2 times the squared norm. *)
Theorem E_symmetric_part s :
  0 < epsilon s -> 0 <= contraction_rate_lb s ->
  exists d,
    [/\ update_model_param s = Ok d,
        E d + (E d)^T
        = lsubmx (usubmx (spec_H s))
          + contraction_rate_lb s
            *: rsubmx (rsubmx (dsubmx (dsubmx (spec_H s))))
      & forall v, half R * (1 + contraction_rate_lb s) * epsilon s * sqnorm v
                  <= qform (E d) v].
Proof.
move=> e0 r0; exists (derived_of s); split.
- by rewrite update_model_paramE E_unitmx.
- have [s11 s33] := sym_diag_blocks (H_mat_sym s).
  by rewrite spec_HE; exact: sym_part.
- by move=> v; exact: E_ge.
Qed.

Lemma solve_w_cong s s' d u :
  x_val s' = x_val s -> D12 s' = D12 s ->
  solve_w tanh s' d u = solve_w tanh s d u.
Proof.
move=> ex eD; rewrite /solve_w.
have -> : w_step tanh s' d u = w_step tanh s d u by rewrite /w_step ex eD.
by [].
Qed.

Lemma next_x_cong s s' u :
  derived_of s' = derived_of s -> x_val s' = x_val s ->
  B2 s' = B2 s -> D12 s' = D12 s ->
  next_x tanh s' u = next_x tanh s u.
Proof.
by move=> ed ex eB eD; rewrite /next_x ed ex eB (solve_w_cong _ u ex eD).
Qed.

Lemma out_y_cong s s' u :
  derived_of s' = derived_of s -> x_val s' = x_val s ->
  B2 s' = B2 s -> D12 s' = D12 s ->
  C2 s' = C2 s -> D21 s' = D21 s -> D22 s' = D22 s ->
  out_y tanh s' u = out_y tanh s u.
Proof.
move=> ed ex eB eD eC e21 e22.
by rewrite /out_y (next_x_cong u ed ex eB eD) ed eC e21 e22
           (solve_w_cong _ u ex eD).
Qed.

(** X10: the parameters X and Y enter the model through X^T X and
    Y - Y^T only.  Replacing X and Y by matrices with the same X^T X and the
    same Y - Y^T changes neither what [_update_model_param] computes nor the
    new state and the output of [forward] (nor whether it raises). *)
Theorem parameterization_invariances s X' Y' u :
  X'^T *m X' = (X s)^T *m X s -> Y' - Y'^T = Y s - (Y s)^T ->
  let s' := set_params s X' Y' (B2 s) (C2 s) (D21 s) (D22 s) (D12 s) in
  update_model_param s' = update_model_param s
  /\ match forward tanh s u, forward tanh s' u with
     | Ok (s1, y1), Ok (s2, y2) => x_val s1 = x_val s2 /\ y1 = y2
     | Raise e1, Raise e2 => e1 = e2
     | _, _ => False
     end.
Proof.
move=> eX eY s'.
have ed : derived_of s' = derived_of s.
  rewrite /derived_of /H_mat /= eX -!addrA eY.
  by [].
split; first by rewrite !update_model_paramE ed.
rewrite (forwardE tanh s u) (forwardE tanh s' u) ed.
case: (E (derived_of s) \in unitmx); last by [].
split.
  by rewrite /step /= (next_x_cong u ed).
by rewrite (out_y_cong u ed).
Qed.

End ImplicitLayer.

(** ** Construction with a target output; the training script *)

Section Construction.

Variable R : realFieldType.
Variable tanh : R -> R.
Variable lstsq : forall p n : nat, 'M[R]_(p, n) -> 'cV[R]_p -> 'cV[R]_n.
Variables (dim_in dim_out dim_internal dim_nl batch_size : nat).

Local Notation n := dim_internal.
Local Notation l := dim_nl.
Local Notation m := dim_in.
Local Notation p := dim_out.
Local Notation B := batch_size.
Local Notation model := (model R dim_in dim_out dim_internal dim_nl batch_size).


(** X12: the constructor given a target output [y_init] and no
    [internal_state_init].  When it returns, the target has [dim_out]
    entries and the initial state is the solution [lstsq] gives for
    C2 x = y; if that solution is exact, the buffer [y_init] is the target
    itself, and every [run] logs the target at time 0. *)
Theorem init_y_init_target Z_X Z_Y Z_B2 Z_C2 Z_D21 Z_D22 Z_D12
    (t : tensor R) (std eps rho : R) (s : model) :
  let C2' := std *: Z_C2 in
  let y : 'rV[R]_p := \row_(j < p) nth 0 (data t) j in
  @init R lstsq m p n l B Z_X Z_Y Z_B2 Z_C2 Z_D21 Z_D22 Z_D12
        (PyNone R) (PyTensor t) std eps rho = Ok s ->
  C2' *m lstsq C2' y^T = y^T ->
  [/\ numel t = p,
      x_init s = (lstsq C2' y^T)^T,
      y_init s = y
    & forall us s' ys, run tanh s us = Ok (s', ys) ->
        nth 0 ys 0 = bcast B y].
Proof.
move=> C2' y; rewrite /init /= /reshape_row.
case: (numel t == 0%N) => //=; case: eqP => //= et [<-] ex /=.
have ey : linear (lstsq C2' y^T)^T C2' = y.
  by rewrite /linear -trmx_mul ex trmxK.
split=> // us s' ys /run_buffers [_ _ ->] /=.
by rewrite ey.
Qed.

End Construction.

Section TrainingScript.

(** X13: the sizes the training script hands to [random_split] never
    exceed the number of signals, fall short of it by 2 at most, and add up
    to it exactly when the number of signals is a multiple of 4. *)
Theorem split_sizes_cover (num_signals : nat) :
  let '(train_size, val_size, test_size) := split_sizes num_signals in
  [/\ (train_size + val_size + test_size <= num_signals)%N,
      (num_signals <= train_size + val_size + test_size + 2)%N
    & (train_size + val_size + test_size == num_signals)%N
      = (4 %| num_signals)%N].
Proof.
rewrite /split_sizes /=.
have lt_r : (num_signals %% 4 < 4)%N by rewrite ltn_mod.
have e4 := divn_eq num_signals 4.
have e2 : (num_signals %/ 2 = (num_signals %/ 4) * 2 + (num_signals %% 4) %/ 2)%N.
  rewrite [in LHS]e4 -[4%N]/(2 * 2)%N mulnA divnMDl //.
have ed : (4 %| num_signals)%N = (num_signals %% 4 == 0)%N by [].
move: lt_r e4 e2 ed; move: (num_signals %/ 4)%N (num_signals %% 4)%N => q r.
move=> lt_r -> -> ->.
have eq : (q * 2 + r %/ 2 + q + q = q * 4 + r %/ 2)%N.
  rewrite -[4%N]/(2 + 1 + 1)%N !mulnDr !muln1 -!addnA; congr (_ + _)%N.
  by rewrite addnC -addnA.
rewrite eq {eq}; split.
- by rewrite leq_add2l leq_div.
- rewrite -addnA leq_add2l.
  by case: r lt_r => [|[|[|[|r]]]].
- rewrite eqn_add2l.
  by case: r lt_r => [|[|[|[|r]]]].
Qed.

End TrainingScript.

(** ** No nonlinearity *)

Section NoNonlinearity.

Variable R : realFieldType.
Variables (dim_in dim_out dim_internal batch_size : nat).

Local Notation n := dim_internal.
Local Notation m := dim_in.
Local Notation p := dim_out.
Local Notation B := batch_size.

(** X14: with [dim_nl = 0] the loop of [forward] has no turn and [w] has
    no entry: the result of [forward] does not depend on the nonlinearity,
    the new state is E^-1 (F x + B2 u) and the output C2 x' + D22 u. *)
Theorem forward_no_nonlinearity (tanh tanh' : R -> R)
    (s : model R dim_in dim_out dim_internal 0 batch_size)
    (u : 'M[R]_(B, m)) :
  forward tanh s u = forward tanh' s u
  /\ forall s' y, forward tanh s u = Ok (s', y) ->
       x_val s' = linear (linear (x_val s) (F (derived_of s))
                          + linear u (B2 s)) (E_inv (derived_of s))
       /\ y = linear (x_val s') (C2 s) + linear u (D22 s).
Proof.
have ew f : solve_w f s (derived_of s) u = 0 by exact: thinmx0.
have en f : next_x f s u
            = linear (linear (x_val s) (F (derived_of s)) + linear u (B2 s))
                     (E_inv (derived_of s)).
  by rewrite /next_x ew /linear mul0mx addr0.
have ey f : out_y f s u = linear (next_x f s u) (C2 s) + linear u (D22 s).
  by rewrite /out_y ew /linear mul0mx addr0.
split.
  by rewrite !forwardE /step !ey !en.
move=> s' y; rewrite forwardE; case: ifP => // _ [<- <-].
by rewrite ey /step /= en.
Qed.

End NoNonlinearity.

(** ** Contraction of the state recursion *)

Section Contraction.
Variable R : realFieldType.
Variable tanh : R -> R.
Variables (dim_in dim_out dim_internal dim_nl batch_size : nat).
Local Notation n := dim_internal.
Local Notation l := dim_nl.
Local Notation m := dim_in.
Local Notation p := dim_out.
Local Notation B := batch_size.
Local Notation model := (model R dim_in dim_out dim_internal dim_nl batch_size).
Implicit Types (s : model) (u : 'M[R]_(B, m)).

Hypothesis tanh_sector : sector tanh.

Local Notation H11 s := (lsubmx (usubmx (H_mat s))).
Local Notation H21 s := (lsubmx (usubmx (dsubmx (H_mat s)))).
Local Notation H22 s := (lsubmx (rsubmx (usubmx (dsubmx (H_mat s))))).
Local Notation H33 s := (rsubmx (rsubmx (dsubmx (dsubmx (H_mat s))))).

Lemma derived_ofE s :
  [/\ F (derived_of s) = lsubmx (dsubmx (dsubmx (H_mat s))),
      B1 (derived_of s) = lsubmx (rsubmx (dsubmx (dsubmx (H_mat s)))),
      C1 (derived_of s) = - H21 s,
      D11 (derived_of s) = - tril (H22 s) (-1)
    & Lambda (derived_of s) = half R *: diag (H22 s)].
Proof. by []. Qed.

Lemma Lambda_gt0 s (i : 'I_l) :
  0 < epsilon s -> 0 < Lambda (derived_of s) 0 i.
Proof.
move=> e0 /=; have := H_mat_diag_gt0 (rshift n (lshift n i)) e0.
by move: (H_mat s) => H hH; rewrite !mxE mulr_gt0 ?half_gt0.
Qed.

(** The sector condition, scaled by a positive [lam]. *)
Lemma sector_scalar (lam w w' v v' : R) :
  0 < lam -> w = tanh (v / lam) -> w' = tanh (v' / lam) ->
  0 <= (w' - w) * (v' - v - lam * (w' - w)).
Proof.
move=> lam0 ew ew'; have lam_neq0 : lam != 0 by rewrite gt_eqF.
have := tanh_sector (v' / lam) (v / lam); rewrite -ew -ew' -mulrBl => sec.
have -> : (w' - w) * (v' - v - lam * (w' - w))
          = lam * ((w' - w) * ((v' - v) / lam - (w' - w))).
  by field.
by rewrite mulr_ge0 // ltW.
Qed.

Lemma next_x_diff s xb u :
  next_x tanh (set_x s xb) u - next_x tanh s u =
    linear (linear (x_val (set_x s xb) - x_val s) (F (derived_of s))
            + linear (solve_w tanh (set_x s xb) (derived_of s) u
                      - solve_w tanh s (derived_of s) u) (B1 (derived_of s)))
           (E_inv (derived_of s)).
Proof.
rewrite /next_x derived_of_set_x -linearB_l; congr (linear _ _).
by rewrite !linearB_l sub_add3.
Qed.

Section OneStep.

Variables (s : model) (xb : xbinding R n B) (u : 'M[R]_(B, m)).
Hypothesis e0 : 0 < epsilon s.
Hypothesis r0 : 0 <= contraction_rate_lb s.

Let d := derived_of s.
Let dX := x_val (set_x s xb) - x_val s.
Let dW := solve_w tanh (set_x s xb) d u - solve_w tanh s d u.
Let dXp := next_x tanh (set_x s xb) u - next_x tanh s u.

Lemma v_of_diff :
  v_of (set_x s xb) d u (solve_w tanh (set_x s xb) d u)
  - v_of s d u (solve_w tanh s d u)
  = linear dX (C1 d) + linear dW (D11 d).
Proof. by rewrite /v_of /dX /dW !linearB_l sub_add3. Qed.

Lemma sector_coord (b : 'I_B) (i : 'I_l) :
  0 <= dW b i * ((linear dX (C1 d) + linear dW (D11 d)) b i
                 - Lambda d 0 i * dW b i).
Proof.
have tri := D11_strictly_lower s.
rewrite -v_of_diff /dW !submxE.
apply: (sector_scalar (Lambda_gt0 i e0)).
  exact: (solve_w_fixpoint tanh s u tri b i).
exact: (solve_w_fixpoint tanh (set_x s xb) u tri b i).
Qed.

Lemma sector_row (b : 'I_B) :
  2 * bform (H21 s) (row b dW) (row b dX) + qform (H22 s) (row b dW) <= 0.
Proof.
have g0 : 0 <= \sum_i dW b i * ((linear dX (C1 d) + linear dW (D11 d)) b i
                                - Lambda d 0 i * dW b i).
  by apply: sumr_ge0 => i _; apply: sector_coord.
move: g0; rewrite sector_sum /d.
have [_ _ -> -> ->] := derived_ofE s.
have [_ _ _ sH22] := sym_blocks (H_mat_sym s).
rewrite (qform_tril _ sH22) bformNm qformN.
have -> : \sum_i (half R *: diag (H22 s)) 0 i * row b dW 0 i ^+ 2
          = half R * \sum_i (H22 s) i i * row b dW 0 i ^+ 2.
  by rewrite mulr_sumr; apply: eq_bigr => i _; rewrite 2![in LHS]mxE mulrA.
move: (bform _ _ _) (qform _ _) (\sum_i _) => a q t h.
by rewrite /half in h; lra.
Qed.

Lemma E_rel (b : 'I_B) :
  row b dXp *m (E d)^T = row b dX *m (F d)^T + row b dW *m (B1 d)^T.
Proof.
have uE : E d \in unitmx by exact: E_unitmx.
rewrite /dXp next_x_diff -/d -/dX -/dW /linear row_mul linearD /= !row_mul.
rewrite -mulmxA -trmx_mul.
have -> : E d *m E_inv d = 1%:M by exact: (mulmxV uE).
by rewrite trmx1 mulmx1.
Qed.

Lemma cross_terms (b : 'I_B) :
  bform (F d) (row b dXp) (row b dX) + bform (B1 d) (row b dXp) (row b dW)
  = qform (E d) (row b dXp).
Proof.
rewrite /qform /bform -addmxE -!mulmxA -mulmxDr.
by rewrite -tr_add_mul -E_rel trmx_mul trmxK.
Qed.

(** One step: the form of H11 at the difference of the states decreases by
    at least epsilon times the squared norm of the difference. *)
Lemma one_step (b : 'I_B) :
  qform (H11 s) (row b dXp)
  + (contraction_rate_lb s - 1) * qform (H33 s) (row b dXp)
  + epsilon s * sqnorm (row b dX)
  <= qform (H11 s) (row b dX).
Proof.
have hge := H_mat_ge s (row_mx (row b dX) (row_mx (row b dW) (- row b dXp))).
move: hge; rewrite (qform_blocks _ _ _ (H_mat_sym s)) !sqnorm_row_mx.
have := cross_terms b; have [-> -> _ _ _] := derived_ofE s.
rewrite qform_E !qform_bform !bformNl !bformNr opprK.
have := sector_row b; rewrite !qform_bform.
have := sqnorm_ge0 (row b dW); have := sqnorm_ge0 (- row b dXp).
move: (sqnorm (row b dX)) (sqnorm (row b dW)) (sqnorm _) => nx nw np.
set qx := bform (H11 s) (row b dX) (row b dX).
set qp := bform (H11 s) (row b dXp) (row b dXp).
set q3 := bform (H33 s) (row b dXp) (row b dXp).
set q2 := bform (H22 s) (row b dW) (row b dW).
set b21 := bform (H21 s) (row b dW) (row b dX).
set b31 := bform _ (row b dXp) (row b dX).
set b32 := bform _ (row b dXp) (row b dW).
move=> np0 nw0 sec cr; rewrite !mulrDr mulrBl mul1r.
have := mulr_ge0 (ltW e0) nw0; have := mulr_ge0 (ltW e0) np0.
move: cr; rewrite /half mulrDr.
move: (epsilon s * nx) (epsilon s * nw) (epsilon s * np) => enx enw enp.
move: (contraction_rate_lb s * q3) => rq3.
move: qx qp q3 q2 b21 b31 b32 sec => qx qp q3 q2 b21 b31 b32 sec cr.
by lra.
Qed.

End OneStep.
End Contraction.

Section Bound.
Variable R : realFieldType.

Lemma abs_sum_ge0 (k : nat) (A : 'M[R]_k) : 0 <= abs_sum A.
Proof. by apply: sumr_ge0 => i _; apply: sumr_ge0 => j _. Qed.

Lemma sq_le_sqnorm (k : nat) (v : 'rV[R]_k) (i : 'I_k) :
  v 0 i ^+ 2 <= sqnorm v.
Proof.
rewrite /sqnorm (bigD1 i) //= lerDl.
by apply: sumr_ge0 => j _; rewrite sqr_ge0.
Qed.

Lemma term_bound (a x y S : R) :
  x ^+ 2 <= S -> y ^+ 2 <= S -> x * a * y <= `|a| * S.
Proof.
move=> hx hy; apply: le_trans (ler_norm _) _.
rewrite !normrM mulrAC [_ * `|a|]mulrC ler_wpM2l //.
have : 0 <= (`|x| - `|y|) ^+ 2 by rewrite sqr_ge0.
rewrite sqrrB !real_normK ?num_real // => h.
move: hx hy h; move: (`|x|) (`|y|) (x ^+ 2) (y ^+ 2) => p q x2 y2.
by rewrite -mulr_natr => hx hy h; lra.
Qed.
Lemma qform_sum (k : nat) (A : 'M[R]_k) (v : 'rV[R]_k) :
  qform A v = \sum_j \sum_i v 0 i * A i j * v 0 j.
Proof.
rewrite /qform mxE; apply: eq_bigr => j _.
by rewrite [v^T _ _]mxE mxE mulr_suml.
Qed.

Lemma qform_le_abs (k : nat) (A : 'M[R]_k) (v : 'rV[R]_k) :
  qform A v <= abs_sum A * sqnorm v.
Proof.
rewrite qform_sum /abs_sum exchange_big /= mulr_suml.
apply: ler_sum => j _; rewrite mulr_suml; apply: ler_sum => i _.
by apply: term_bound; apply: sq_le_sqnorm.
Qed.

End Bound.

Section Rate.
Variable R : realFieldType.
Variable tanh : R -> R.
Variables (dim_in dim_out dim_internal dim_nl batch_size : nat).
Local Notation n := dim_internal.
Local Notation l := dim_nl.
Local Notation m := dim_in.
Local Notation p := dim_out.
Local Notation B := batch_size.
Local Notation model := (model R dim_in dim_out dim_internal dim_nl batch_size).
Implicit Types (s : model) (u : 'M[R]_(B, m)).

Hypothesis tanh_sector : sector tanh.

Lemma H11_diag_ge s (i : 'I_n) : epsilon s <= H11_mat s i i.
Proof.
rewrite /H11_mat -spec_HE !mxE eqxx lerDr.
by apply: sumr_ge0 => k _; rewrite -expr2 sqr_ge0.
Qed.

Lemma abs_sum_ge_diag (k : nat) (A : 'M[R]_k) (i : 'I_k) :
  A i i <= abs_sum A.
Proof.
apply: le_trans (ler_norm _) _; rewrite /abs_sum (bigD1 i) //=.
rewrite (bigD1 i) //= -addrA lerDl addr_ge0 //.
  by apply: sumr_ge0 => j _.
by apply: sumr_ge0 => j _; apply: sumr_ge0 => j' _.
Qed.

Lemma abs_sum_H11 s (i : 'I_n) : epsilon s <= abs_sum (H11_mat s).
Proof. exact: le_trans (H11_diag_ge s i) (abs_sum_ge_diag _ i). Qed.

Lemma rate_ge0 s : 0 < epsilon s -> 0 <= rate s.
Proof.
move=> e0; rewrite /rate subr_ge0.
case: (posnP n) => [n0|n_gt0].
  have -> : abs_sum (H11_mat s) = 0.
    rewrite /abs_sum big1 // => i _.
    have n_gt0 : (0 < n)%N by exact: leq_ltn_trans (leq0n i) (ltn_ord i).
    by rewrite n0 in n_gt0.
  by rewrite invr0 mulr0 ler01.
have le := abs_sum_H11 s (Ordinal n_gt0).
by rewrite ler_pdivrMr ?mul1r // (lt_le_trans e0).
Qed.

Lemma rate_lt1 s : 0 < epsilon s -> (0 < n)%N -> rate s < 1.
Proof.
move=> e0 n_gt0; have le := abs_sum_H11 s (Ordinal n_gt0).
by rewrite /rate gtrBl divr_gt0 // (lt_le_trans e0).
Qed.
Lemma dist2_ge s (v : 'rV[R]_n) : epsilon s * sqnorm v <= dist2 s v.
Proof. exact: H11_ge. Qed.

Lemma dist2_le s (v : 'rV[R]_n) : dist2 s v <= abs_sum (H11_mat s) * sqnorm v.
Proof. exact: qform_le_abs. Qed.

(** One step, for rho >= 1: the distance shrinks by the factor [rate]. *)
Lemma one_step_rate s xb u (b : 'I_B) :
  0 < epsilon s -> 1 <= contraction_rate_lb s ->
  dist2 s (row b (next_x tanh (set_x s xb) u - next_x tanh s u))
  <= rate s * dist2 s (row b (x_val (set_x s xb) - x_val s)).
Proof.
move=> e0 r1; have r0 : 0 <= contraction_rate_lb s by apply: le_trans r1.
have h := one_step tanh_sector xb u e0 r0 b.
set dxp := row b (next_x _ _ _ - _) in h *.
set dx := row b (x_val _ - _) in h *.
have hM := dist2_le s dx; have nx0 := sqnorm_ge0 dx.
have t0 : 0 <= (contraction_rate_lb s - 1)
               * qform (rsubmx (rsubmx (dsubmx (dsubmx (H_mat s))))) dxp.
  rewrite mulr_ge0 ?subr_ge0 //.
  by apply: le_trans (H33_ge s dxp); rewrite mulr_ge0 ?sqnorm_ge0 // ltW.
move: h hM nx0 t0; rewrite /rate /dist2 /H11_mat.
set qp := qform _ dxp; set qx := qform _ dx.
move: ((contraction_rate_lb s - 1) * _) (sqnorm dx) => t nx.
move: (abs_sum _) (abs_sum_ge0 (lsubmx (usubmx (H_mat s)))) => M M0.
move: qp qx (epsilon s) e0 => qp qx e e0' h hM nx0 t0.
rewrite mulrBl mul1r.
have [M_eq0|M_neq0] := eqVneq M 0.
  rewrite M_eq0 invr0 mulr0 mul0r subr0.
  have : 0 <= e * nx by rewrite mulr_ge0 // ltW.
  by move: (e * nx) h => enx h enx0; lra.
have M_gt0 : 0 < M by rewrite lt_neqAle eq_sym M_neq0.
have : e / M * qx <= e * nx.
  by rewrite -mulrA ler_pM2l // mulrC ler_pdivrMr // mulrC.
by move: (e / M * qx) (e * nx) h => a c h ac; lra.
Qed.

Lemma steps_Ok s (us : seq 'M[R]_(B, m)) :
  0 < epsilon s -> 0 <= contraction_rate_lb s ->
  steps tanh s us
  = Ok (foldl (@step R tanh dim_in dim_out dim_internal dim_nl batch_size)
              s us).
Proof.
move=> e0 r0; elim: us s e0 r0 => [//|u us IH] s e0 r0 /=.
by rewrite forward_Ok //= IH.
Qed.

Local Notation stepf :=
  (@step R tanh dim_in dim_out dim_internal dim_nl batch_size).

Lemma set_xK s xa xb : set_x (set_x s xa) xb = set_x s xb.
Proof. by []. Qed.

Lemma dist2_set_x s xa : dist2 (set_x s xa) = dist2 s.
Proof. by []. Qed.

Lemma rate_set_x s xa : rate (set_x s xa) = rate s.
Proof. by []. Qed.

Lemma step_set_xE s xa u :
  step tanh (set_x s xa) u = set_x s (OwnB (next_x tanh (set_x s xa) u)).
Proof. by []. Qed.

Lemma x_val_OwnB s (M : 'M[R]_(B, n)) : x_val (set_x s (OwnB M)) = M.
Proof. by []. Qed.

Lemma step_rate s xa xb u (b : 'I_B) :
  0 < epsilon s -> 1 <= contraction_rate_lb s ->
  dist2 s (row b (x_val (stepf (set_x s xb) u) - x_val (stepf (set_x s xa) u)))
  <= rate s * dist2 s (row b (x_val (set_x s xb) - x_val (set_x s xa))).
Proof.
move=> e0 r1.
exact: (@one_step_rate (set_x s xa) xb u b e0 r1).
Qed.

Lemma foldl_contract s (us : seq 'M[R]_(B, m)) xa xb (b : 'I_B) :
  0 < epsilon s -> 1 <= contraction_rate_lb s ->
  dist2 s (row b (x_val (foldl stepf (set_x s xb) us)
                  - x_val (foldl stepf (set_x s xa) us)))
  <= rate s ^+ size us
     * dist2 s (row b (x_val (set_x s xb) - x_val (set_x s xa))).
Proof.
move=> e0 r1; elim: us xa xb => [|u us IH] xa xb.
  by rewrite expr0 mul1r.
have hs := step_rate xa xb u b e0 r1.
have hI := IH (OwnB (next_x tanh (set_x s xa) u))
              (OwnB (next_x tanh (set_x s xb) u)).
have r_ge0 : 0 <= rate s ^+ size us by rewrite exprn_ge0 // rate_ge0.
have hm := ler_wpM2l r_ge0 hs.
rewrite [size _]/= exprSr -mulrA.
exact: le_trans hI hm.
Qed.

End Rate.

Section ContractionMain.
Variable R : realFieldType.
Variable tanh : R -> R.
Variables (dim_in dim_out dim_internal dim_nl batch_size : nat).
Local Notation n := dim_internal.
Local Notation l := dim_nl.
Local Notation m := dim_in.
Local Notation p := dim_out.
Local Notation B := batch_size.
Local Notation model := (model R dim_in dim_out dim_internal dim_nl batch_size).
Local Notation stepf :=
  (@step R tanh dim_in dim_out dim_internal dim_nl batch_size).
Implicit Types (s : model) (u : 'M[R]_(B, m)).

(** X15: one step from two states.  For a nonlinearity in the sector
    [0, 1], epsilon > 0 and rho >= 0, [forward] returns from both states
    under the same input, and for every batch entry the difference dx' of
    the new states and the difference dx of the old ones satisfy
    dx'^T H11 dx' + (rho - 1) dx'^T P dx' + epsilon |dx|^2 <= dx^T H11 dx. *)
Theorem forward_lyapunov s xa xb u :
  sector tanh -> 0 < epsilon s -> 0 <= contraction_rate_lb s ->
  exists sa ya sb yb,
    [/\ forward tanh (set_x s xa) u = Ok (sa, ya),
        forward tanh (set_x s xb) u = Ok (sb, yb)
      & forall b : 'I_B,
          let dx := row b (x_val (set_x s xb) - x_val (set_x s xa)) in
          let dx' := row b (x_val sb - x_val sa) in
          dist2 s dx'
          + (contraction_rate_lb s - 1) * qform (P_mat s) dx'
          + epsilon s * sqnorm dx
          <= dist2 s dx].
Proof.
move=> sec e0 r0.
exists (stepf (set_x s xa) u), (out_y tanh (set_x s xa) u),
       (stepf (set_x s xb) u), (out_y tanh (set_x s xb) u).
split.
- exact: (forward_Ok tanh (s := set_x s xa) u e0 r0).
- exact: (forward_Ok tanh (s := set_x s xb) u e0 r0).
- move=> b.
  exact: (@one_step R tanh dim_in dim_out dim_internal dim_nl batch_size sec
            (set_x s xa) xb u e0 r0 b).
Qed.

(** X16: for a nonlinearity in the sector [0, 1], epsilon > 0 and
    rho >= 1, two trajectories of the state under one input sequence come
    together geometrically.  Both sequences of calls of [forward] return;
    measured with the block H11 of H, the squared distance of the states is
    multiplied by at most [rate] at every step, where 0 <= [rate] < 1; and
    this measure lies between epsilon and [abs_sum H11] times the squared
    Euclidean distance. *)
Theorem steps_contract s xa xb (us : seq 'M[R]_(B, m)) :
  sector tanh -> 0 < epsilon s -> 1 <= contraction_rate_lb s ->
  exists st_a st_b,
    [/\ steps tanh (set_x s xa) us = Ok st_a,
        steps tanh (set_x s xb) us = Ok st_b,
        0 <= rate s /\ ((0 < n)%N -> rate s < 1),
        forall v, epsilon s * sqnorm v <= dist2 s v
                  /\ dist2 s v <= abs_sum (H11_mat s) * sqnorm v
      & forall b : 'I_B,
          dist2 s (row b (x_val st_b - x_val st_a))
          <= rate s ^+ size us
             * dist2 s (row b (x_val (set_x s xb) - x_val (set_x s xa)))].
Proof.
move=> sec e0 r1.
have r0 : 0 <= contraction_rate_lb s by exact: le_trans ler01 r1.
exists (foldl stepf (set_x s xa) us), (foldl stepf (set_x s xb) us).
split.
- exact: (steps_Ok tanh (s := set_x s xa) us e0 r0).
- exact: (steps_Ok tanh (s := set_x s xb) us e0 r0).
- split; first exact: (rate_ge0 e0).
  by move=> n0; exact: (rate_lt1 e0 n0).
- by move=> v; split; [exact: (dist2_ge s v) | exact: (dist2_le s v)].
- by move=> b; exact: (foldl_contract sec us xa xb b e0 r1).
Qed.

(** X17: for a nonlinearity in the sector [0, 1] that vanishes at 0,
    epsilon > 0 and rho >= 1, the state goes to the origin under the zero
    input: after T calls of [forward] with the input 0 its squared length,
    measured with H11, is at most [rate]^T times what it was. *)
Theorem zero_input_stable s (T : nat) :
  sector tanh -> tanh 0 = 0 ->
  0 < epsilon s -> 1 <= contraction_rate_lb s ->
  exists s',
    steps tanh s (nseq T 0) = Ok s'
    /\ forall b : 'I_B,
         dist2 s (row b (x_val s'))
         <= rate s ^+ T * dist2 s (row b (x_val s)).
Proof.
move=> sec t0 e0 r1.
have r0 : 0 <= contraction_rate_lb s by exact: le_trans ler01 r1.
exists (foldl stepf s (nseq T 0)); split; first exact: (steps_Ok tanh _ e0 r0).
move=> b.
have := foldl_contract sec (nseq T 0) (OwnB 0) (x s) b e0 r1.
have z : x_val (set_x s (OwnB (0 : 'M[R]_(B, n)))) = 0 by [].
by rewrite (foldl_step_zero T t0 z) z !subr0 set_x_id size_nseq.
Qed.

End ContractionMain.

(** ** Closed instances of the further properties *)

Section ClosedMore.

Local Notation model1 := (model rat 1 1 1 1 1).

Lemma slope_half_sector : sector slope_half.
Proof.
move=> a b; rewrite /slope_half.
have -> : (a / 2 - b / 2) * (a - b - (a / 2 - b / 2)) = ((a - b) / 2) ^+ 2.
  by field.
exact: sqr_ge0.
Qed.

Lemma slope_half0 : slope_half 0 = 0.
Proof. by rewrite /slope_half mul0r. Qed.

Lemma ex_model_rho1 : 1 <= contraction_rate_lb ex_model.
Proof. exact: lexx. Qed.

Lemma ex_model_x0 : x_val ex_model = 0.
Proof. by rewrite /x_val /= bcast0. Qed.

Lemma ex_run :
  run slope_half ex_model ex_input
  = Ok (step slope_half (reset ex_model) 1%:M,
        [:: bcast 1 (y_init ex_model);
            out_y slope_half (reset ex_model) 1%:M]).
Proof. exact: (run_two _ _ _ ex_model_eps (ltW ex_model_rho)). Qed.

Lemma ex_run_b :
  run slope_half ex_model ex_input_b
  = Ok (step slope_half (reset ex_model) 1%:M,
        [:: bcast 1 (y_init ex_model);
            out_y slope_half (reset ex_model) 1%:M]).
Proof. exact: (run_two _ _ _ ex_model_eps (ltW ex_model_rho)). Qed.

(** X2, witness: [ex_model] on an input of two time slices. *)
Lemma run_log_size_witness :
  run slope_half ex_model ex_input
  = Ok (step slope_half (reset ex_model) 1%:M,
        [:: bcast 1 (y_init ex_model);
            out_y slope_half (reset ex_model) 1%:M])
  /\ size [:: bcast 1 (y_init ex_model);
              out_y slope_half (reset ex_model) 1%:M]
     = maxn 1 (size ex_input).
Proof.
split; first exact: ex_run.
exact: (run_log_size ex_run).
Defined.

(** X3, witness: [ex_model] on two inputs that differ at time 1 only. *)
Lemma run_causal_witness :
  [/\ (1 < size ex_input)%N, (1 < size ex_input_b)%N
    & take 1 ex_input = take 1 ex_input_b]
  /\ exists sa ys sb ys',
       [/\ run slope_half ex_model ex_input = Ok (sa, ys),
           run slope_half ex_model ex_input_b = Ok (sb, ys')
         & forall t, (t <= 1)%N -> nth 0 ys t = nth 0 ys' t].
Proof.
split; first by [].
exists (step slope_half (reset ex_model) 1%:M),
       [:: bcast 1 (y_init ex_model); out_y slope_half (reset ex_model) 1%:M],
       (step slope_half (reset ex_model) 1%:M),
       [:: bcast 1 (y_init ex_model); out_y slope_half (reset ex_model) 1%:M].
split; [exact: ex_run | exact: ex_run_b |].
exact: (@run_causal _ _ _ _ _ _ _ _ _ _ 1%N _ _ _ _ ex_run ex_run_b isT isT
          (erefl _)).
Defined.

(** X4, witness: [ex_model] run twice on the same input. *)
Lemma run_repeatable_witness :
  run slope_half ex_model ex_input
  = Ok (step slope_half (reset ex_model) 1%:M,
        [:: bcast 1 (y_init ex_model);
            out_y slope_half (reset ex_model) 1%:M])
  /\ run slope_half (step slope_half (reset ex_model) 1%:M) ex_input
     = Ok (step slope_half (reset ex_model) 1%:M,
           [:: bcast 1 (y_init ex_model);
               out_y slope_half (reset ex_model) 1%:M]).
Proof.
split; first exact: ex_run.
by have [_ h _ _] := run_repeatable ex_run.
Defined.

(** X6, witness: [ex_model], whose state is zero, at the input zero. *)
Lemma forward_zero_equilibrium_witness :
  [/\ slope_half 0 = 0, x_val ex_model = 0
    & forward slope_half ex_model 0
      = Ok (step slope_half ex_model 0, out_y slope_half ex_model 0)]
  /\ x_val (step slope_half ex_model 0) = 0
  /\ out_y slope_half ex_model 0 = 0.
Proof.
have fw := forward_Ok slope_half 0 ex_model_eps (ltW ex_model_rho).
split; first by split; [exact: slope_half0 | exact: ex_model_x0 |].
exact: (forward_zero_equilibrium slope_half0 ex_model_x0 fw).
Defined.

(** X7, witness: the default construction with every draw the identity,
    on three time slices. *)
Lemma init_default_zero_run_witness :
  [/\ slope_half 0 = 0, (0 : rat) < 1 & (0 : rat) <= 1]
  /\ exists s s' : model1,
       [/\ @init rat lstsq_tr 1 1 1 1 1 1%:M 1%:M 1%:M 1%:M 1%:M 1%:M 1%:M
                 (PyNone rat) (PyNone rat) 1 1 1 = Ok s,
           run slope_half s (nseq 3 0) = Ok (s', nseq (maxn 1 3) 0)
         & x_val s' = 0].
Proof.
split; first by split; [exact: slope_half0 | exact: ltr01 | exact: ler01].
exact: (@init_default_zero_run rat slope_half lstsq_tr 1 1 1 1 1
          1%:M 1%:M 1%:M 1%:M 1%:M 1%:M 1%:M 1 1 1 3 slope_half0 ltr01 ler01).
Defined.

(** X8, witness: the instance [ex_model]. *)
Lemma implicit_layer_matrix_witness :
  update_model_param ex_model = Ok (derived_of ex_model)
  /\ diag_mx (Lambda (derived_of ex_model)) *+ 2 - D11 (derived_of ex_model)
     - (D11 (derived_of ex_model))^T
     = lsubmx (rsubmx (usubmx (dsubmx (spec_H ex_model)))).
Proof.
split; first exact: ex_model_update.
by have [h _ _] := implicit_layer_matrix ex_model_update.
Defined.

(** X9, witness: the instance [ex_model]. *)
Lemma E_symmetric_part_witness :
  0 < epsilon ex_model /\ 0 <= contraction_rate_lb ex_model
  /\ exists d : derived rat 1 1,
       update_model_param ex_model = Ok d
       /\ E d + (E d)^T
          = lsubmx (usubmx (spec_H ex_model))
            + contraction_rate_lb ex_model
              *: rsubmx (rsubmx (dsubmx (dsubmx (spec_H ex_model)))).
Proof.
split; first exact: ex_model_eps.
split; first exact: (ltW ex_model_rho).
have [d [ud hE _]] := E_symmetric_part ex_model_eps (ltW ex_model_rho).
by exists d.
Defined.

Lemma neg_gram :
  (- 1%:M : 'M[rat]_(1 + (1 + 1)))^T *m (- 1%:M) = (X ex_model)^T *m X ex_model.
Proof. by rewrite /= tr_opp mulNmx mulmxN opprK. Qed.

Lemma sym_skew : (1%:M : 'M[rat]_1) - 1%:M^T = Y ex_model - (Y ex_model)^T.
Proof. by rewrite /= trmx1 trmx0 !subrr. Qed.

(** X10, witness: [ex_model] with X replaced by - X and Y by the
    identity. *)
Lemma parameterization_invariances_witness :
  ((- 1%:M : 'M[rat]_(1 + (1 + 1)))^T *m (- 1%:M)
   = (X ex_model)^T *m X ex_model
   /\ (1%:M : 'M[rat]_1) - 1%:M^T = Y ex_model - (Y ex_model)^T)
  /\ update_model_param
       (set_params ex_model (- 1%:M) 1%:M (B2 ex_model) (C2 ex_model)
                   (D21 ex_model) (D22 ex_model) (D12 ex_model))
     = update_model_param ex_model.
Proof.
split; first by split; [exact: neg_gram | exact: sym_skew].
by have [h _] :=
  parameterization_invariances slope_half 1%:M neg_gram sym_skew.
Defined.

Lemma numel_unit : numel unit_tensor = 1%N.
Proof. by rewrite /numel /= big_cons big_nil. Qed.

Lemma unit_target_exact :
  (1 *: 1%:M : 'M[rat]_1)
    *m lstsq_tr (1 *: 1%:M) (\row_(j < 1) nth 0 (data unit_tensor) j)^T
  = (\row_(j < 1) nth 0 (data unit_tensor) j)^T.
Proof. by rewrite /lstsq_tr scale1r trmx1 !mul1mx. Qed.

(** X12, witness: the target output 1 with C2 the identity. *)
Lemma init_y_init_target_witness :
  exists s : model1,
    [/\ @init rat lstsq_tr 1 1 1 1 1 1%:M 1%:M 1%:M 1%:M 1%:M 1%:M 1%:M
              (PyNone rat) (PyTensor unit_tensor) 1 1 1 = Ok s,
        (1 *: 1%:M : 'M[rat]_1)
          *m lstsq_tr (1 *: 1%:M) (\row_(j < 1) nth 0 (data unit_tensor) j)^T
        = (\row_(j < 1) nth 0 (data unit_tensor) j)^T
      & y_init s = \row_(j < 1) nth 0 (data unit_tensor) j].
Proof.
have ei : exists s : model1,
    @init rat lstsq_tr 1 1 1 1 1 1%:M 1%:M 1%:M 1%:M 1%:M 1%:M 1%:M
          (PyNone rat) (PyTensor unit_tensor) 1 1 1 = Ok s.
  by eexists; rewrite /init /reshape_row numel_unit /=; reflexivity.
case: ei => s es; exists s; split=> //; first exact: unit_target_exact.
by have [_ _ h _] := init_y_init_target slope_half es unit_target_exact.
Defined.

(** X15, witness: [ex_model] from the states 0 and 1. *)
Lemma forward_lyapunov_witness :
  [/\ sector slope_half, 0 < epsilon ex_model
    & 0 <= contraction_rate_lb ex_model]
  /\ exists sa ya sb yb,
       [/\ forward slope_half (set_x ex_model (Own1 1 0)) 1%:M = Ok (sa, ya),
           forward slope_half (set_x ex_model (Own1 1 1%:M)) 1%:M
           = Ok (sb, yb)
         & forall b : 'I_1,
             dist2 ex_model (row b (x_val sb - x_val sa))
             + (contraction_rate_lb ex_model - 1)
               * qform (P_mat ex_model) (row b (x_val sb - x_val sa))
             + epsilon ex_model
               * sqnorm (row b (x_val (set_x ex_model (Own1 1 1%:M))
                                - x_val (set_x ex_model (Own1 1 0))))
             <= dist2 ex_model
                  (row b (x_val (set_x ex_model (Own1 1 1%:M))
                          - x_val (set_x ex_model (Own1 1 0))))].
Proof.
split.
  by split; [exact: slope_half_sector | exact: ex_model_eps
            | exact: (ltW ex_model_rho)].
exact: (@forward_lyapunov rat slope_half 1 1 1 1 1 ex_model (Own1 1 0)
          (Own1 1 1%:M) 1%:M slope_half_sector ex_model_eps
          (ltW ex_model_rho)).
Defined.

(** X16, witness: [ex_model] from the states 0 and 1 under [ex_input]. *)
Lemma steps_contract_witness :
  [/\ sector slope_half, 0 < epsilon ex_model
    & 1 <= contraction_rate_lb ex_model]
  /\ exists st_a st_b,
       [/\ steps slope_half (set_x ex_model (Own1 1 0)) ex_input = Ok st_a,
           steps slope_half (set_x ex_model (Own1 1 1%:M)) ex_input = Ok st_b
         & forall b : 'I_1,
             dist2 ex_model (row b (x_val st_b - x_val st_a))
             <= rate ex_model ^+ size ex_input
                * dist2 ex_model
                    (row b (x_val (set_x ex_model (Own1 1 1%:M))
                            - x_val (set_x ex_model (Own1 1 0))))].
Proof.
split.
  by split; [exact: slope_half_sector | exact: ex_model_eps
            | exact: ex_model_rho1].
have [st_a [st_b [ha hb _ _ hc]]] :=
  @steps_contract rat slope_half 1 1 1 1 1 ex_model (Own1 1 0)
     (Own1 1 1%:M) ex_input slope_half_sector ex_model_eps ex_model_rho1.
by exists st_a, st_b.
Defined.

(** X17, witness: [ex_model_b], started at the state 1, under three
    zero inputs. *)
Lemma zero_input_stable_witness :
  [/\ sector slope_half, slope_half 0 = 0, 0 < epsilon ex_model_b
    & 1 <= contraction_rate_lb ex_model_b]
  /\ exists s' : model1,
       steps slope_half ex_model_b (nseq 3 0) = Ok s'
       /\ forall b : 'I_1,
            dist2 ex_model_b (row b (x_val s'))
            <= rate ex_model_b ^+ 3 * dist2 ex_model_b (row b (x_val ex_model_b)).
Proof.
split.
  by split; [exact: slope_half_sector | exact: slope_half0
            | exact: ex_model_eps | exact: ex_model_rho1].
exact: (@zero_input_stable rat slope_half 1 1 1 1 1 ex_model_b 3
          slope_half_sector slope_half0 ex_model_eps ex_model_rho1).
Defined.

End ClosedMore.
